(** * lead_service.py: the lead intake workflow and its validators

    A shallow embedding of [LeadService] (src/lead_service.py): the
    three static helpers [is_valid_email], [is_valid_phone] and
    [determine_region], and the orchestration routine [process_lead],
    which talks to three collaborators ([lead_repo], [sales_agent_repo],
    [notification_service]) and mutates the submitted dict in place. *)

From Stdlib Require Import ZArith Ascii Bool.
From Stdlib Require String.
From stdpp Require Import base option list gmap strings.

(** ** Python values and dicts *)

(** The values that the dicts of this program hold: [None], [str] and
    [int] (identifiers are integers in the test-suite).  A [str] is
    modelled as a Rocq [string]; the patterns of this file only name
    ASCII characters, so matching on the UTF-8 bytes of a text and
    matching on its code points accept the same texts. *)
Inductive pyval : Type :=
| PyNone
| PyStr (s : string)
| PyInt (n : Z).

#[global] Instance pyval_eq_dec : EqDecision pyval.
Proof. solve_decision. Defined.

(** [bool(v)]: [None], the empty string and [0] are falsy. *)
Definition truthy (v : pyval) : bool :=
  match v with
  | PyNone => false
  | PyStr s => negb (String.eqb s "")
  | PyInt n => negb (n =? 0)%Z
  end.

(** [d.get(k)]: the value stored under [k], or [None]. *)
Definition dict_get (d : gmap string pyval) (k : string) : pyval :=
  default PyNone (d !! k).

(** ** Exceptions and results *)

Inductive exn : Type :=
| ValidationException (messages : gmap string string)
| TypeError (msg : string)
| KeyError (key : string).

Inductive result (A : Type) : Type :=
| Returned (a : A)
| Raised (e : exn).
Arguments Returned {A} a.
Arguments Raised {A} e.

(** ** The fragment of Python's [re] that the two patterns use

    [sre_parse] turns each of the two patterns into a flat sequence of
    operations.  The matcher below is the backtracking matcher of
    [re.match] on such sequences: it anchors at offset 0, tries the
    longest repetition first and does not have to consume the text. *)
Module Re.

Inductive charset : Type :=
| LITERAL (c : ascii)               (* [c] *)
| NOT_LITERAL (c : ascii)           (* [[^c]] *)
| RANGE (lo hi : ascii).            (* [[lo-hi]] *)

Definition charset_mem (cs : charset) (c : ascii) : bool :=
  match cs with
  | LITERAL a => Ascii.eqb c a
  | NOT_LITERAL a => negb (Ascii.eqb c a)
  | RANGE lo hi =>
      (N_of_ascii lo <=? N_of_ascii c)%N && (N_of_ascii c <=? N_of_ascii hi)%N
  end.

Inductive op : Type :=
| AT_BEGINNING                                        (* [^] *)
| AT_END                                              (* [$] *)
| CHAR (cs : charset)
| MAX_REPEAT (lo : nat) (hi : option nat) (cs : charset).
    (* [cs{lo,hi}]; [hi = None] is MAXREPEAT *)

Definition LF : ascii := "010"%char.

(** [$] without MULTILINE: at the end of the text, or just before a
    newline that is the last character of the text. *)
Definition at_end (s : string) : bool :=
  match s with
  | EmptyString => true
  | String c EmptyString => Ascii.eqb c LF
  | _ => false
  end.

Definition exhausted (hi : option nat) : bool :=
  match hi with Some O => true | _ => false end.

(** Greedy repetition of a character set followed by the
    continuation [k]; [bos] tells whether the cursor is still at
    offset 0. *)
Fixpoint max_repeat (k : bool → string → bool) (cs : charset)
    (lo : nat) (hi : option nat) (bos : bool) (s : string) : bool :=
  let stop := match lo with O => k bos s | S _ => false end in
  match s with
  | String c s' =>
      if charset_mem cs c && negb (exhausted hi)
      then max_repeat k cs (Nat.pred lo) (Nat.pred <$> hi) false s' || stop
      else stop
  | EmptyString => stop
  end.

Fixpoint match_ops (p : list op) (bos : bool) (s : string) : bool :=
  match p with
  | [] => true
  | AT_BEGINNING :: p' => bos && match_ops p' bos s
  | AT_END :: p' => at_end s && match_ops p' bos s
  | CHAR cs :: p' =>
      match s with
      | String c s' => charset_mem cs c && match_ops p' false s'
      | EmptyString => false
      end
  | MAX_REPEAT lo hi cs :: p' => max_repeat (match_ops p') cs lo hi bos s
  end.

(** [re.match(p, s) is not None] *)
Definition matches (p : list op) (s : string) : bool := match_ops p true s.

End Re.

(** ** The static helpers of [LeadService] *)

(** [r'^[^@]+@[^@]+\.[^@]+$'] *)
Definition email_regex : list Re.op :=
  [ Re.AT_BEGINNING;
    Re.MAX_REPEAT 1 None (Re.NOT_LITERAL "@");
    Re.CHAR (Re.LITERAL "@");
    Re.MAX_REPEAT 1 None (Re.NOT_LITERAL "@");
    Re.CHAR (Re.LITERAL ".");
    Re.MAX_REPEAT 1 None (Re.NOT_LITERAL "@");
    Re.AT_END ].

(** [r'^\+?[0-9]{7,15}$'] *)
Definition phone_regex : list Re.op :=
  [ Re.AT_BEGINNING;
    Re.MAX_REPEAT 0 (Some 1) (Re.LITERAL "+");
    Re.MAX_REPEAT 7 (Some 15) (Re.RANGE "0" "9");
    Re.AT_END ].

(** [re.match(p, v) is not None]; a value that is not a [str] makes
    [re.match] raise [TypeError]. *)
Definition re_match (p : list Re.op) (v : pyval) : result bool :=
  match v with
  | PyStr s => Returned (Re.matches p s)
  | _ => Raised (TypeError "expected string or bytes-like object")
  end.

Definition is_valid_email (email : pyval) : result bool :=
  if negb (truthy email) then Returned false
  else re_match email_regex email.

Definition is_valid_phone (phone : pyval) : result bool :=
  if negb (truthy phone) then Returned false
  else re_match phone_regex phone.

Definition determine_region (location : pyval) : pyval :=
  PyStr "default-region".

(** ** Collaborators *)

(** Modelled from the spec: the classes behind [lead_repo],
    [sales_agent_repo] and [notification_service] are not in the
    repository (the tests put [Mock]s in their place).  The
    specification gives what their methods return: a stored lead is a
    record with an identifier and a name, a sales agent is a record
    with an identifier and a display name, and a lookup may find
    nothing.  A record with an ['id'] is a non-empty dict, hence truthy;
    [option] is the record or [None]. *)
Module StoredLead.
Record t : Type := { id : Z; name : string }.
End StoredLead.

Module SalesAgent.
Record t : Type := { id : Z; name : string }.
End SalesAgent.

Inductive call : Type :=
| find_by_email_or_phone (email phone : pyval)
| update (id : Z) (lead_data : gmap string pyval)
| save_to_waiting_queue (lead_data : gmap string pyval)
| create (lead_data : gmap string pyval)
| log_lead_process (lead_id agent_id : Z) (message : string)
| get_best_available_agent
| send (agent_id : Z) (message : string).

Definition resp (c : call) : Type :=
  match c with
  | find_by_email_or_phone _ _ => option StoredLead.t
  | create _ => StoredLead.t
  | get_best_available_agent => option SalesAgent.t
  | update _ _ | save_to_waiting_queue _
  | log_lead_process _ _ _ | send _ _ => unit
  end.

(** ** Programs that call collaborators

    [Call d c k] makes the collaborator call [c] while the submitted
    dict, which the caller and the collaborators share by reference,
    holds [d], and goes on with [k] applied to the answer. *)
Inductive prog (A : Type) : Type :=
| Ret (a : A)
| Raise (e : exn)
| Call (d : gmap string pyval) (c : call) (k : resp c → prog A).
Arguments Ret {A} a.
Arguments Raise {A} e.
Arguments Call {A} d c k.

Fixpoint bind {A B : Type} (m : prog A) (f : A → prog B) : prog B :=
  match m with
  | Ret a => f a
  | Raise e => Raise e
  | Call d c k => Call d c (λ r, bind (k r) f)
  end.

#[global] Instance prog_ret : MRet prog := @Ret.
#[global] Instance prog_bind : MBind prog := λ A B f m, bind m f.

Definition lift {A : Type} (r : result A) : prog A :=
  match r with
  | Returned a => Ret a
  | Raised e => Raise e
  end.

Definition perform (d : gmap string pyval) (c : call) : prog (resp c) :=
  Call d c Ret.

(** [d[k]] *)
Definition getitem (d : gmap string pyval) (k : string) : result pyval :=
  match d !! k with
  | Some v => Returned v
  | None => Raised (KeyError k)
  end.

(** ** [LeadService.process_lead]

    The result pairs the returned dict with [lead_data] as the call
    leaves it: the routine mutates its argument in place. *)
Definition process_lead (lead_data : gmap string pyval)
  : prog (gmap string pyval * gmap string pyval) :=
  (* 1. Check if lead has email or phone number *)
  if negb (truthy (dict_get lead_data "email"))
     && negb (truthy (dict_get lead_data "phone"))
  then Raise (ValidationException
                {[ "error" := "Lead must have email or phone number" ]})
  else
    email_ok ← lift (is_valid_email (dict_get lead_data "email"));
    (* [or] evaluates its right operand only when the left one is false *)
    invalid ← (if negb email_ok then Ret true
               else phone_ok ← lift (is_valid_phone (dict_get lead_data "phone"));
                    Ret (negb phone_ok));
    if invalid : bool
    then Raise (ValidationException
                  {[ "error" := "Invalid email or phone format" ]})
    else
      (* 2. Check if lead already exists *)
      lead ← perform lead_data
               (find_by_email_or_phone (dict_get lead_data "email")
                                       (dict_get lead_data "phone"));
      match lead with
      | Some lead =>
          (* 3. If lead exists, update lead data *)
          _ ← perform lead_data (update (StoredLead.id lead) lead_data);
          Ret ({[ "message" := PyStr "Lead updated" ]}, lead_data)
      | None =>
          (* 4. Determine region from location *)
          lead_data ←
            (if truthy (dict_get lead_data "location")
             then location ← lift (getitem lead_data "location");
                  Ret (<["region" := determine_region location]> lead_data)
             else Ret lead_data);
          (* 5. Assign lead to sales agent *)
          sales_agent ← perform lead_data get_best_available_agent;
          match sales_agent with
          | None =>
              (* 6. If no available sales agent, add lead to waiting queue *)
              _ ← perform lead_data (save_to_waiting_queue lead_data);
              Ret ({[ "message" :=
                        PyStr "No available sales agents. Lead added to waiting queue." ]},
                   lead_data)
          | Some sales_agent =>
              (* 7. Create new lead and assign to sales agent *)
              let lead_data :=
                <["assigned_agent" := PyInt (SalesAgent.id sales_agent)]> lead_data in
              new_lead ← perform lead_data (create lead_data);
              (* 8. Send notification to sales agent *)
              _ ← perform lead_data
                    (send (SalesAgent.id sales_agent)
                          ("New lead assigned: " +:+ StoredLead.name new_lead));
              (* 9. Log lead process *)
              _ ← perform lead_data
                    (log_lead_process (StoredLead.id new_lead)
                                      (SalesAgent.id sales_agent)
                                      "Lead assigned successfully");
              Ret ({[ "message" := PyStr "New lead created and assigned";
                      "assigned_to" := PyStr (SalesAgent.name sales_agent) ]},
                   lead_data)
          end
      end.

(** ** Running a program against collaborators

    A world is a state and a handler that answers every call and moves
    the state.  Collaborator calls complete: a collaborator that fails
    is outside this development.  [run] also records the calls, each
    with the dict as it was when the call was made. *)
Record event : Type := Event { ev_lead_data : gmap string pyval; ev_call : call }.

Section Run.
Context {W : Type} (handle : ∀ c : call, W → resp c * W).

Fixpoint run {A : Type} (p : prog A) (σ : W) : list event * result A * W :=
  match p with
  | Ret a => ([], Returned a, σ)
  | Raise e => ([], Raised e, σ)
  | Call d c k =>
      let '(r, σ1) := handle c σ in
      let '(tr, res, σ2) := run (k r) σ1 in
      (Event d c :: tr, res, σ2)
  end.
End Run.

(** A world in the manner of [unittest.mock.Mock]: canned return values
    and no state. *)
Definition mock (found : option StoredLead.t) (agent : option SalesAgent.t)
    (created : StoredLead.t) (c : call) (σ : unit) : resp c * unit :=
  match c return resp c * unit with
  | find_by_email_or_phone _ _ => (found, tt)
  | create _ => (created, tt)
  | get_best_available_agent => (agent, tt)
  | update _ _ | save_to_waiting_queue _
  | log_lead_process _ _ _ | send _ _ => (tt, tt)
  end.

Definition valid_lead_data : gmap string pyval :=
  {[ "email" := PyStr "test@example.com"; "phone" := PyStr "12345678";
     "name" := PyStr "John" ]}.

(** * Vocabulary of the statements *)

(** ** Texts *)

Fixpoint str_all (P : ascii → bool) (s : string) : bool :=
  match s with
  | EmptyString => true
  | String c s' => P c && str_all P s'
  end.

(** ** What the matcher accepts

    [ReSpec.Matches p bos s]: the operations [p] match a prefix of
    [s], read off the operations one by one. *)
Module ReSpec.
Import Re.

Definition within (hi : option nat) (n : nat) : Prop :=
match hi with Some h => n <= h | None => True end.

Definition is_empty (s : string) : bool :=
match s with EmptyString => true | _ => false end.

Fixpoint Matches (p : list op) (bos : bool) (s : string) : Prop :=
match p with
| [] => True
| AT_BEGINNING :: p' => bos = true ∧ Matches p' bos s
| AT_END :: p' => (s = "" ∨ s = String LF "") ∧ Matches p' bos s
| CHAR cs :: p' =>
    ∃ c s', s = String c s' ∧ charset_mem cs c = true ∧ Matches p' false s'
| MAX_REPEAT lo hi cs :: p' =>
    ∃ pre post, s = pre +:+ post
      ∧ str_all (charset_mem cs) pre = true
      ∧ lo <= String.length pre ∧ within hi (String.length pre)
      ∧ Matches p' (bos && is_empty pre) post
end.

End ReSpec.

(** ** The shapes that the specification gives in words *)

Definition not_at (c : ascii) : bool := negb (Ascii.eqb c "@").

(** at least one character, none of them ['@'] *)
Definition some_non_at (s : string) : Prop :=
  s ≠ "" ∧ str_all not_at s = true.

(** [local-part@domain.tld] and nothing else *)
Definition email_shape (s : string) : Prop :=
  ∃ local domain tld : string,
    s = local +:+ "@" +:+ domain +:+ "." +:+ tld
    ∧ some_non_at local ∧ some_non_at domain ∧ some_non_at tld.

Definition decimal_digit (c : ascii) : bool :=
  match c with
  | "0" | "1" | "2" | "3" | "4" | "5" | "6" | "7" | "8" | "9" => true
  | _ => false
  end%char.

(** 7 to 15 decimal digits *)
Definition digits_7_15 (s : string) : Prop :=
  str_all decimal_digit s = true
  ∧ 7 <= String.length s ∧ String.length s <= 15.

(** an optional leading ['+'], then 7 to 15 decimal digits, and nothing
    else *)
Definition phone_shape (s : string) : Prop :=
  ∃ digits : string, (s = digits ∨ s = "+" +:+ digits) ∧ digits_7_15 digits.

(** ** The two checks, and the routing that follows them *)

Definition presence_failure : exn :=
  ValidationException {[ "error" := "Lead must have email or phone number" ]}.

Definition format_failure : exn :=
  ValidationException {[ "error" := "Invalid email or phone format" ]}.

(** The exception with which the two checks of [process_lead] stop, if
    they do. *)
Definition checks (d : gmap string pyval) : option exn :=
  if negb (truthy (dict_get d "email")) && negb (truthy (dict_get d "phone"))
  then Some presence_failure
  else match is_valid_email (dict_get d "email") with
       | Raised e => Some e
       | Returned false => Some format_failure
       | Returned true =>
           match is_valid_phone (dict_get d "phone") with
           | Raised e => Some e
           | Returned false => Some format_failure
           | Returned true => None
           end
       end.

(** The dict after step 4. *)
Definition with_region (d : gmap string pyval) : gmap string pyval :=
  if truthy (dict_get d "location")
  then <["region" := PyStr "default-region"]> d
  else d.

Definition updated_message : gmap string pyval :=
  {[ "message" := PyStr "Lead updated" ]}.

Definition queued_message : gmap string pyval :=
  {[ "message" := PyStr "No available sales agents. Lead added to waiting queue." ]}.

Definition assigned_message (agent : SalesAgent.t) : gmap string pyval :=
  {[ "message" := PyStr "New lead created and assigned";
     "assigned_to" := PyStr (SalesAgent.name agent) ]}.

(** Steps 2 to 9 of [process_lead], once both checks have passed. *)
Definition route (d : gmap string pyval)
  : prog (gmap string pyval * gmap string pyval) :=
  Call d (find_by_email_or_phone (dict_get d "email") (dict_get d "phone"))
    (λ lead, match lead with
     | Some lead =>
         Call d (update (StoredLead.id lead) d) (λ _, Ret (updated_message, d))
     | None =>
         Call (with_region d) get_best_available_agent
           (λ sales_agent, match sales_agent with
            | None =>
                Call (with_region d) (save_to_waiting_queue (with_region d))
                  (λ _, Ret (queued_message, with_region d))
            | Some agent =>
                let d' := <["assigned_agent" := PyInt (SalesAgent.id agent)]>
                            (with_region d) in
                Call d' (create d')
                  (λ new_lead,
                   Call d' (send (SalesAgent.id agent)
                              ("New lead assigned: " +:+ StoredLead.name new_lead))
                     (λ _,
                      Call d' (log_lead_process (StoredLead.id new_lead)
                                 (SalesAgent.id agent) "Lead assigned successfully")
                        (λ _, Ret (assigned_message agent, d'))))
            end)
     end).

(** ** Runs of the workflow against arbitrary collaborators *)

Definition find_call (d : gmap string pyval) : call :=
  find_by_email_or_phone (dict_get d "email") (dict_get d "phone").

Definition with_agent (agent : SalesAgent.t) (d : gmap string pyval)
  : gmap string pyval :=
  <["assigned_agent" := PyInt (SalesAgent.id agent)]> (with_region d).

Definition send_call (agent : SalesAgent.t) (new_lead : StoredLead.t) : call :=
  send (SalesAgent.id agent) ("New lead assigned: " +:+ StoredLead.name new_lead).

Definition log_call (agent : SalesAgent.t) (new_lead : StoredLead.t) : call :=
  log_lead_process (StoredLead.id new_lead) (SalesAgent.id agent)
    "Lead assigned successfully".

(** ** Submissions as the caller hands them in

    The data model: [email], [phone] and [location] are optional texts,
    [name] is a text, and [region] and [assigned_agent] are added during
    processing, so a submission arrives without them. *)
Definition str_or_none (v : pyval) : Prop :=
  match v with PyInt _ => False | _ => True end.

Record LeadSubmission (d : gmap string pyval) : Prop := {
  email_optional_str : str_or_none (dict_get d "email");
  phone_optional_str : str_or_none (dict_get d "phone");
  location_optional_str : str_or_none (dict_get d "location");
  name_str : ∃ s, d !! "name" = Some (PyStr s);
  region_not_yet : d !! "region" = None;
  assigned_agent_not_yet : d !! "assigned_agent" = None
}.

(** Both contact fields are present and pass their validators. *)
Definition contact_valid (d : gmap string pyval) : Prop :=
  is_Some (d !! "email") ∧ is_Some (d !! "phone")
  ∧ is_valid_email (dict_get d "email") = Returned true
  ∧ is_valid_phone (dict_get d "phone") = Returned true.

Definition trace_of {A W : Type} (r : list event * result A * W) : list event :=
  r.1.1.
Definition outcome_of {A W : Type} (r : list event * result A * W) : result A :=
  r.1.2.
Definition world_of {A W : Type} (r : list event * result A * W) : W :=
  r.2.

(** ** The calls that a run can contain *)

(** The submission that a call hands to the store, if it hands one. *)
Definition stored (c : call) : option (gmap string pyval) :=
  match c with
  | update _ p | save_to_waiting_queue p | create p => Some p
  | _ => None
  end.

(** The events of the runs on a submission [d]: each call with the dict
    as it is when the call is made. *)
Inductive made_call (d : gmap string pyval) : event → Prop :=
| made_find :
    made_call d (Event d (find_call d))
| made_update (id : Z) :
    made_call d (Event d (update id d))
| made_get_best :
    made_call d (Event (with_region d) get_best_available_agent)
| made_save :
    made_call d (Event (with_region d) (save_to_waiting_queue (with_region d)))
| made_create (agent : SalesAgent.t) :
    made_call d (Event (with_agent agent d) (create (with_agent agent d)))
| made_send (agent : SalesAgent.t) (new_lead : StoredLead.t) :
    made_call d (Event (with_agent agent d) (send_call agent new_lead))
| made_log (agent : SalesAgent.t) (new_lead : StoredLead.t) :
    made_call d (Event (with_agent agent d) (log_call agent new_lead)).

Ltac each_event H :=
  unfold trace_of in H; cbn [fst snd] in H;
  repeat (apply elem_of_cons in H as [-> | H]);
  [.. | by apply elem_of_nil in H].

(** * The fixtures of the test-suite, and runs on them *)

Definition lead_data_with_email_only : gmap string pyval :=
  {[ "email" := PyStr "test@example.com"; "name" := PyStr "John" ]}.

Definition lead_data_no_contact : gmap string pyval :=
  {[ "name" := PyStr "John" ]}.

Definition valid_lead_data_US : gmap string pyval :=
  <["location" := PyStr "US"]> valid_lead_data.

Definition valid_lead_data_blank_location : gmap string pyval :=
  <["location" := PyStr ""]> valid_lead_data.

Definition agent1 : SalesAgent.t := {| SalesAgent.id := 1; SalesAgent.name := "Agent1" |}.
Definition john1 : StoredLead.t := {| StoredLead.id := 1; StoredLead.name := "John" |}.
Definition john2 : StoredLead.t := {| StoredLead.id := 2; StoredLead.name := "John" |}.

Ltac by_evaluation := vm_compute; reflexivity.

(** ** Further vocabulary: calls, payloads, characters *)

(** The calls of a run, in order, without the dict snapshots. *)
Definition calls_of (tr : list event) : list call := ev_call <$> tr.

(** The submissions that a run hands to the store, in order. *)
Definition payloads_of (tr : list event) : list (gmap string pyval) :=
  omap (λ ev, stored (ev_call ev)) tr.

(** The exception of [re.match] on a value that is not a text. *)
Definition type_error : exn :=
  TypeError "expected string or bytes-like object".

(** How often a character occurs in a text. *)
Fixpoint str_count (c : ascii) (s : string) : nat :=
  match s with
  | EmptyString => 0
  | String c' s' => (if Ascii.eqb c' c then 1 else 0) + str_count c s'
  end.

(** The characters that can occur in a text that [is_valid_phone]
    accepts. *)
Definition phone_char (c : ascii) : bool :=
  decimal_digit c || Ascii.eqb c "+" || Ascii.eqb c Re.LF.

Definition lead_data_int_phone : gmap string pyval :=
  {[ "phone" := PyInt 12345678; "name" := PyStr "John" ]}.

Definition lead_data_int_email : gmap string pyval :=
  {[ "email" := PyInt 7; "phone" := PyStr "12345678"; "name" := PyStr "John" ]}.

(** A valid submission that arrives with an agent id in it. *)
Definition lead_data_with_agent : gmap string pyval :=
  <["assigned_agent" := PyInt 9]> valid_lead_data.

(** A submission that arrives with the fields of an earlier run. *)
Definition lead_data_resubmitted : gmap string pyval :=
  <["assigned_agent" := PyInt 9]> (<["region" := PyStr "north"]> valid_lead_data_US).

(** A world with state: the agents that are still available.  The
    directory hands out the first one, who is then busy; the store
    knows no lead and creates [john2]. *)
Definition agents_world (c : call) (agents : list SalesAgent.t)
  : resp c * list SalesAgent.t :=
  match c return resp c * list SalesAgent.t with
  | find_by_email_or_phone _ _ => (None, agents)
  | create _ => (john2, agents)
  | get_best_available_agent => (head agents, tail agents)
  | update _ _ | save_to_waiting_queue _
  | log_lead_process _ _ _ | send _ _ => (tt, agents)
  end.

(** ** Collaborators that can fail

    The source has no [try]: when a collaborator call raises, the call
    is the last thing [process_lead] does and the exception is what
    [process_lead] raises.  A fallible world answers a call with a
    value or with an exception. *)
Section RunFallible.
Context {W : Type} (handle : ∀ c : call, W → result (resp c) * W).

Fixpoint run_fallible {A : Type} (p : prog A) (σ : W)
  : list event * result A * W :=
  match p with
  | Ret a => ([], Returned a, σ)
  | Raise e => ([], Raised e, σ)
  | Call d c k =>
      let '(r, σ1) := handle c σ in
      match r with
      | Raised e => ([Event d c], Raised e, σ1)
      | Returned a =>
          let '(tr, res, σ2) := run_fallible (k a) σ1 in
          (Event d c :: tr, res, σ2)
      end
  end.
End RunFallible.

(** The program has no [raise] of its own after this point. *)
Fixpoint no_raise {A : Type} (p : prog A) : Prop :=
  match p with
  | Ret _ => True
  | Raise _ => False
  | Call _ c k => ∀ r : resp c, no_raise (k r)
  end.

(** A world whose calls all complete, seen as a fallible world. *)
Definition completing {W : Type} (handle : ∀ c : call, W → resp c * W)
    (c : call) (σ : W) : result (resp c) * W :=
  let '(r, σ1) := handle c σ in (Returned r, σ1).

(** A world without state in which the store knows no lead and creates
    [john2], [agent1] is available, and the notifier raises [e]. *)
Definition notifier_raises (e : exn) (c : call) (σ : unit)
  : result (resp c) * unit :=
  match c return result (resp c) * unit with
  | find_by_email_or_phone _ _ => (Returned None, tt)
  | create _ => (Returned john2, tt)
  | get_best_available_agent => (Returned (Some agent1), tt)
  | send _ _ => (Raised e, tt)
  | update _ _ | save_to_waiting_queue _
  | log_lead_process _ _ _ => (Returned tt, tt)
  end.

(** * Properties of the validators *)

(** ** Texts *)

Lemma str_app_cons (c : ascii) (s1 s2 : string) :
  String c s1 +:+ s2 = String c (s1 +:+ s2).
Proof. reflexivity. Qed.

Lemma str_app_nil_l (s : string) : "" +:+ s = s.
Proof. reflexivity. Qed.

Lemma str_app_nil_r (s : string) : s +:+ "" = s.
Proof. induction s as [|c s IH]; [done | by rewrite str_app_cons, IH]. Qed.

Lemma str_app_assoc (s1 s2 s3 : string) :
  (s1 +:+ s2) +:+ s3 = s1 +:+ (s2 +:+ s3).
Proof. induction s1 as [|c s1 IH]; [done | by rewrite !str_app_cons, IH]. Qed.

Lemma str_length_app (s1 s2 : string) :
  String.length (s1 +:+ s2) = String.length s1 + String.length s2.
Proof.
  induction s1 as [|c s1 IH]; [done |].
  rewrite str_app_cons. cbn. by rewrite IH.
Qed.

Lemma str_all_app (P : ascii → bool) (s1 s2 : string) :
  str_all P (s1 +:+ s2) = str_all P s1 && str_all P s2.
Proof.
  induction s1 as [|c s1 IH]; [done |].
  rewrite str_app_cons. cbn. by rewrite IH, andb_assoc.
Qed.

Module ReFacts.
Import Re ReSpec.

Lemma at_end_spec (s : string) :
  at_end s = true ↔ s = "" ∨ s = String LF "".
Proof.
  destruct s as [|c [|c' s]]; simpl.
  - split; [by left | done].
  - rewrite Ascii.eqb_eq. split.
    + intros ->. by right.
    + by intros [?|[= ->]].
  - split; [done | by intros [?|?]].
Qed.

Lemma max_repeat_spec (k : bool → string → bool) (cs : charset) (s : string) :
  ∀ lo hi bos,
    max_repeat k cs lo hi bos s = true ↔
    ∃ pre post, s = pre +:+ post
      ∧ str_all (charset_mem cs) pre = true
      ∧ lo <= String.length pre ∧ within hi (String.length pre)
      ∧ k (bos && is_empty pre) post = true.
Proof.
  assert (Hstop : ∀ lo hi bos s,
    match lo with 0 => k bos s | S _ => false end = true
    → ∃ pre post, s = pre +:+ post
        ∧ str_all (charset_mem cs) pre = true
        ∧ lo <= String.length pre ∧ within hi (String.length pre)
        ∧ k (bos && is_empty pre) post = true).
  { intros [|lo] hi bos t Hk; [|done]. exists "", t.
    rewrite andb_true_r. repeat split; try done.
    destruct hi; simpl; lia. }
  assert (Hnil : ∀ lo bos s post,
    s = "" +:+ post → lo <= String.length "" → k (bos && is_empty "") post = true
    → match lo with 0 => k bos s | S _ => false end = true).
  { intros lo bos t post -> Hlo Hk. rewrite str_app_nil_l.
    simpl in Hlo. assert (lo = 0) as -> by lia.
    by rewrite andb_true_r in Hk. }
  induction s as [|c s IH]; intros lo hi bos.
  - cbn [max_repeat]. split; [by apply Hstop |].
    intros (pre & post & Hs & _ & Hlo & _ & Hk).
    destruct pre as [|c' pre]; [by eapply Hnil | done].
  - cbn [max_repeat]. split.
    + intros H.
      destruct (charset_mem cs c && negb (exhausted hi)) eqn:Hc; [|by apply Hstop].
      apply orb_true_iff in H as [H|H]; [|by apply Hstop].
      apply andb_true_iff in Hc as [Hc Hhi].
      apply IH in H as (pre & post & -> & Hall & Hlo & Hin & Hk).
      exists (String c pre), post. cbn [str_all String.length is_empty].
      rewrite Hc, Hall, str_app_cons.
      repeat split; try done; try lia.
      * destruct hi as [[|h]|]; simpl in *; try done; lia.
      * by rewrite andb_false_r.
    + intros (pre & post & Hs & Hall & Hlo & Hin & Hk).
      destruct pre as [|c' pre].
      * erewrite Hnil by done.
        destruct (charset_mem cs c && negb (exhausted hi)); [apply orb_true_r | done].
      * rewrite str_app_cons in Hs. injection Hs as <- ->.
        cbn [str_all String.length is_empty] in Hall, Hlo, Hin, Hk.
        apply andb_true_iff in Hall as [Hc Hall]. rewrite Hc.
        assert (exhausted hi = false) as ->.
        { destruct hi as [[|h]|]; simpl in *; try done; lia. }
        cbn [negb andb]. apply orb_true_iff. left. apply IH.
        exists pre, post. repeat split; try done; try lia.
        -- destruct hi as [h|]; simpl in *; [lia | done].
        -- by rewrite andb_false_r in Hk.
Qed.

Lemma match_ops_spec (p : list op) :
  ∀ bos s, match_ops p bos s = true ↔ Matches p bos s.
Proof.
  induction p as [|o p IH]; intros bos s; [done |].
  destruct o as [| |cs|lo hi cs]; cbn [match_ops Matches].
  - rewrite andb_true_iff, IH. done.
  - rewrite andb_true_iff, IH, at_end_spec. done.
  - destruct s as [|c s].
    + split; [done | by intros (? & ? & ? & _)].
    + rewrite andb_true_iff, IH. split.
      * intros [? ?]. by exists c, s.
      * by intros (? & ? & [= <- <-] & ? & ?).
  - rewrite max_repeat_spec.
    by setoid_rewrite IH.
Qed.

End ReFacts.

Lemma str_all_ext (P Q : ascii → bool) (s : string) :
  (∀ c, P c = Q c) → str_all P s = str_all Q s.
Proof. intros H. induction s as [|c s IH]; [done |]. cbn. by rewrite H, IH. Qed.

Lemma range_0_9_decimal (c : ascii) :
  Re.charset_mem (Re.RANGE "0" "9") c = decimal_digit c.
Proof. by destruct c as [[] [] [] [] [] [] [] []]. Qed.

Lemma str_nonempty_length (s : string) : s ≠ "" ↔ 1 <= String.length s.
Proof. destruct s; simpl; split; (done || lia). Qed.

Lemma str_all_not_at_LF (s : string) :
  str_all not_at s = true → str_all not_at (s +:+ String Re.LF "") = true.
Proof. intros H. by rewrite str_all_app, H. Qed.

(** The email pattern accepts exactly the texts of [email_shape]: a
    newline that [$] leaves unread is itself a character other than
    ['@'], so it belongs to the last part. *)
Lemma email_regex_spec (s : string) :
  Re.matches email_regex s = true ↔ email_shape s.
Proof.
  unfold Re.matches. rewrite ReFacts.match_ops_spec.
  unfold email_regex, email_shape, some_non_at.
  cbn [ReSpec.Matches Re.charset_mem ReSpec.within].
  split.
  - intros (_ & l & r1 & -> & Hl & Hll & _ & c1 & r2 & -> & Hc1 & d & r3 & ->
            & Hd & Hdl & _ & c2 & r4 & -> & Hc2 & t & r5 & -> & Ht & Htl & _
            & Hend & _).
    apply Ascii.eqb_eq in Hc1 as ->. apply Ascii.eqb_eq in Hc2 as ->.
    exists l, d, (t +:+ r5).
    rewrite !str_nonempty_length, str_length_app.
    repeat split; try done; try lia.
    destruct Hend as [-> | ->].
    + by rewrite str_app_nil_r.
    + by apply str_all_not_at_LF.
  - intros (l & d & t & -> & [Hl Hla] & [Hd Hda] & [Ht Hta]).
    apply str_nonempty_length in Hl, Hd, Ht.
    split; [done |]. exists l, ("@" +:+ d +:+ "." +:+ t).
    repeat split; try done.
    exists "@"%char, (d +:+ "." +:+ t). repeat split; try done.
    exists d, ("." +:+ t). repeat split; try done.
    exists "."%char, t. repeat split; try done.
    exists t, "". rewrite str_app_nil_r. repeat split; try done. by left.
Qed.

Lemma optional_plus (pre : string) :
  str_all (Re.charset_mem (Re.LITERAL "+")) pre = true
  → String.length pre <= 1 → pre = "" ∨ pre = "+".
Proof.
  destruct pre as [|c [|c' pre]]; cbn; intros Hall Hlen.
  - by left.
  - right. rewrite andb_true_r in Hall. by apply Ascii.eqb_eq in Hall as ->.
  - lia.
Qed.

(** The phone pattern accepts the texts of [phone_shape] and, because
    [$] also matches just before a final newline, the same texts
    followed by one newline. *)
Lemma phone_regex_spec (s : string) :
  Re.matches phone_regex s = true ↔
  phone_shape s ∨ ∃ s', s = s' +:+ String Re.LF "" ∧ phone_shape s'.
Proof.
  unfold Re.matches. rewrite ReFacts.match_ops_spec.
  unfold phone_regex, phone_shape, digits_7_15.
  cbn [ReSpec.Matches ReSpec.within].
  split.
  - intros (_ & pre & r1 & -> & Hpre & _ & Hlen & ds & r2 & -> & Hds & Hlo & Hhi
            & Hend & _).
    rewrite (str_all_ext _ _ _ range_0_9_decimal) in Hds.
    destruct (optional_plus pre Hpre Hlen) as [-> | ->].
    + rewrite str_app_nil_l.
      destruct Hend as [-> | ->].
      * left. exists ds. rewrite str_app_nil_r. split; [by left | done].
      * right. exists ds. split; [done |]. exists ds. split; [by left | done].
    + destruct Hend as [-> | ->].
      * left. exists ds. rewrite str_app_nil_r. split; [by right | done].
      * right. exists ("+" +:+ ds). rewrite str_app_assoc. split; [done |].
        exists ds. split; [by right | done].
  - assert (Hshape : ∀ t r, (r = "" ∨ r = String Re.LF "")
      → (∃ digits, (t = digits ∨ t = "+" +:+ digits)
           ∧ str_all decimal_digit digits = true
           ∧ 7 <= String.length digits ∧ String.length digits <= 15)
      → true = true ∧ ∃ pre post, t +:+ r = pre +:+ post
          ∧ str_all (Re.charset_mem (Re.LITERAL "+")) pre = true
          ∧ 0 <= String.length pre ∧ String.length pre <= 1
          ∧ ∃ pre0 post0, post = pre0 +:+ post0
              ∧ str_all (Re.charset_mem (Re.RANGE "0" "9")) pre0 = true
              ∧ 7 <= String.length pre0 ∧ String.length pre0 <= 15
              ∧ (post0 = "" ∨ post0 = String Re.LF "") ∧ True).
    { intros t r Hr (ds & Ht & Hds & Hlo & Hhi). split; [done |].
      rewrite <- (str_all_ext _ _ _ range_0_9_decimal) in Hds.
      destruct Ht as [-> | ->].
      - exists "", (ds +:+ r). repeat split; try done; cbn; try lia.
        by exists ds, r.
      - exists "+", (ds +:+ r). rewrite str_app_assoc.
        repeat split; try done; cbn; try lia.
        by exists ds, r. }
    intros [H | (s' & -> & H)].
    + rewrite <- (str_app_nil_r s). apply Hshape; [by left | done].
    + apply Hshape; [by right | done].
Qed.

Lemma phone_shape_no_LF (s : string) :
  ¬ phone_shape (s +:+ String Re.LF "").
Proof.
  intros (ds & Hs & Hall & _).
  assert (str_all (λ c, decimal_digit c || Ascii.eqb c "+")
            (s +:+ String Re.LF "") = true) as Hbad.
  { assert (str_all (λ c, decimal_digit c || Ascii.eqb c "+") ds = true) as Hds.
    { clear Hs. induction ds as [|c ds IH]; [done |].
      cbn in Hall |- *. apply andb_true_iff in Hall as [-> ?]. by rewrite IH. }
    destruct Hs as [-> | ->]; [done |].
    rewrite str_app_cons, str_app_nil_l. cbn [str_all]. by rewrite Hds. }
  rewrite str_all_app in Hbad. cbn in Hbad. by rewrite andb_false_r in Hbad.
Qed.

(** * Properties of [process_lead] *)

Lemma truthy_dict_get (d : gmap string pyval) (k : string) :
  truthy (dict_get d k) = true → ∃ v, d !! k = Some v ∧ truthy v = true.
Proof.
  unfold dict_get. destruct (d !! k) as [v|]; [|done].
  intros H. by exists v.
Qed.

Lemma process_lead_checks (d : gmap string pyval) :
  process_lead d = match checks d with Some e => Raise e | None => route d end.
Proof.
  unfold process_lead, checks.
  destruct (negb (truthy (dict_get d "email")) && negb (truthy (dict_get d "phone")));
    [done |].
  destruct (is_valid_email (dict_get d "email")) as [[] | e]; [| done | done].
  destruct (is_valid_phone (dict_get d "phone")) as [[] | e]; [| done | done].
  unfold route, with_region.
  destruct (truthy (dict_get d "location")) eqn:Hloc.
  - apply truthy_dict_get in Hloc as (v & Hv & _).
    unfold getitem. rewrite Hv. reflexivity.
  - reflexivity.
Qed.

Section Workflow.
Context {W : Type} (handle : ∀ c : call, W → resp c * W).

Lemma run_process_lead (σ : W) (d : gmap string pyval) :
  run handle (process_lead d) σ =
  match checks d with
  | Some e => ([], Raised e, σ)
  | None => run handle (route d) σ
  end.
Proof. rewrite process_lead_checks. by destruct (checks d). Qed.

Lemma run_route_update (σ σ1 : W) (d : gmap string pyval) (lead : StoredLead.t) :
  handle (find_call d) σ = (Some lead, σ1) →
  run handle (route d) σ =
  ([Event d (find_call d); Event d (update (StoredLead.id lead) d)],
   Returned (updated_message, d),
   (handle (update (StoredLead.id lead) d) σ1).2).
Proof.
  intros Hfind. unfold route. fold (find_call d). cbn [run].
  rewrite Hfind. cbn [run].
  destruct (handle (update (StoredLead.id lead) d) σ1) as [? σ2]; reflexivity.
Qed.

Lemma run_route_queue (σ σ1 σ2 : W) (d : gmap string pyval) :
  handle (find_call d) σ = (None, σ1) →
  handle get_best_available_agent σ1 = (None, σ2) →
  run handle (route d) σ =
  ([Event d (find_call d);
    Event (with_region d) get_best_available_agent;
    Event (with_region d) (save_to_waiting_queue (with_region d))],
   Returned (queued_message, with_region d),
   (handle (save_to_waiting_queue (with_region d)) σ2).2).
Proof.
  intros Hfind Hagent. unfold route. fold (find_call d). cbn [run].
  rewrite Hfind. cbn [run]. rewrite Hagent. cbn [run].
  destruct (handle (save_to_waiting_queue (with_region d)) σ2) as [? σ3]; reflexivity.
Qed.

Lemma run_route_assign (σ σ1 σ2 σ3 : W) (d : gmap string pyval)
    (agent : SalesAgent.t) (new_lead : StoredLead.t) :
  handle (find_call d) σ = (None, σ1) →
  handle get_best_available_agent σ1 = (Some agent, σ2) →
  handle (create (with_agent agent d)) σ2 = (new_lead, σ3) →
  run handle (route d) σ =
  ([Event d (find_call d);
    Event (with_region d) get_best_available_agent;
    Event (with_agent agent d) (create (with_agent agent d));
    Event (with_agent agent d) (send_call agent new_lead);
    Event (with_agent agent d) (log_call agent new_lead)],
   Returned (assigned_message agent, with_agent agent d),
   (handle (log_call agent new_lead)
      (handle (send_call agent new_lead) σ3).2).2).
Proof.
  intros Hfind Hagent Hcreate. unfold route. fold (find_call d). cbn [run].
  rewrite Hfind. cbn [run]. rewrite Hagent. cbn [run].
  fold (with_agent agent d). rewrite Hcreate. cbn [run].
  fold (send_call agent new_lead) (log_call agent new_lead).
  destruct (handle (send_call agent new_lead) σ3) as [? σ4]. cbn [snd].
  destruct (handle (log_call agent new_lead) σ4) as [? σ5]; reflexivity.
Qed.

(** Every run of the routing takes one of the three routes. *)
Lemma route_cases (σ : W) (d : gmap string pyval) :
  (∃ lead σ1, handle (find_call d) σ = (Some lead, σ1))
  ∨ (∃ σ1 σ2, handle (find_call d) σ = (None, σ1)
       ∧ handle get_best_available_agent σ1 = (None, σ2))
  ∨ (∃ σ1 σ2 σ3 agent new_lead, handle (find_call d) σ = (None, σ1)
       ∧ handle get_best_available_agent σ1 = (Some agent, σ2)
       ∧ handle (create (with_agent agent d)) σ2 = (new_lead, σ3)).
Proof.
  destruct (handle (find_call d) σ) as [[lead|] σ1] eqn:Hfind.
  { left. by exists lead, σ1. }
  right.
  destruct (handle get_best_available_agent σ1) as [[agent|] σ2] eqn:Hagent.
  - right.
    destruct (handle (create (with_agent agent d)) σ2) as [new_lead σ3] eqn:Hcreate.
    by exists σ1, σ2, σ3, agent, new_lead.
  - left. by exists σ1, σ2.
Qed.

(** Once the checks have passed the routine returns, and it has
    called the store first. *)
Lemma run_route_returned (σ : W) (d : gmap string pyval) :
  ∃ ev tr ret d' σ', run handle (route d) σ = (ev :: tr, Returned (ret, d'), σ').
Proof.
  destruct (route_cases σ d)
    as [(lead & σ1 & Hf) | [(σ1 & σ2 & Hf & Ha)
                           | (σ1 & σ2 & σ3 & agent & new_lead & Hf & Ha & Hc)]].
  - rewrite (run_route_update _ _ _ _ Hf). by repeat eexists.
  - rewrite (run_route_queue _ _ _ _ Hf Ha). by repeat eexists.
  - rewrite (run_route_assign _ _ _ _ _ _ _ Hf Ha Hc). by repeat eexists.
Qed.

End Workflow.

Lemma is_valid_email_total (v : pyval) :
  str_or_none v → ∃ b, is_valid_email v = Returned b.
Proof.
  destruct v as [|s|n]; [by exists false | | done]. intros _.
  unfold is_valid_email. destruct (negb (truthy (PyStr s))); by eexists.
Qed.

Lemma is_valid_phone_total (v : pyval) :
  str_or_none v → ∃ b, is_valid_phone v = Returned b.
Proof.
  destruct v as [|s|n]; [by exists false | | done]. intros _.
  unfold is_valid_phone. destruct (negb (truthy (PyStr s))); by eexists.
Qed.

Lemma is_valid_email_truthy (v : pyval) :
  is_valid_email v = Returned true → truthy v = true.
Proof. unfold is_valid_email. by destruct (truthy v). Qed.

Lemma is_valid_phone_truthy (v : pyval) :
  is_valid_phone v = Returned true → truthy v = true.
Proof. unfold is_valid_phone. by destruct (truthy v). Qed.

Lemma checks_None (d : gmap string pyval) :
  checks d = None ↔
  is_valid_email (dict_get d "email") = Returned true
  ∧ is_valid_phone (dict_get d "phone") = Returned true.
Proof.
  unfold checks. split.
  - destruct (negb (truthy (dict_get d "email")) && negb (truthy (dict_get d "phone")));
      [done |].
    destruct (is_valid_email (dict_get d "email")) as [[] | e]; [| done | done].
    by destruct (is_valid_phone (dict_get d "phone")) as [[] | e].
  - intros [He Hp]. rewrite He, Hp.
    by rewrite (is_valid_email_truthy _ He).
Qed.

Lemma contact_valid_checks (d : gmap string pyval) :
  checks d = None → contact_valid d.
Proof.
  intros [He Hp]%checks_None. unfold contact_valid.
  destruct (truthy_dict_get d "email" (is_valid_email_truthy _ He)) as (? & -> & _).
  destruct (truthy_dict_get d "phone" (is_valid_phone_truthy _ Hp)) as (? & -> & _).
  eauto.
Qed.

(** ** The dicts that the routine holds *)

Lemma with_region_lookup_ne (d : gmap string pyval) (k : string) :
  k ≠ "region" → with_region d !! k = d !! k.
Proof.
  intros Hk. unfold with_region.
  destruct (truthy (dict_get d "location")); [|done].
  by rewrite lookup_insert_ne.
Qed.

Lemma with_region_region (d : gmap string pyval) :
  with_region d !! "region" =
  if truthy (dict_get d "location") then Some (PyStr "default-region")
  else d !! "region".
Proof.
  unfold with_region. destruct (truthy (dict_get d "location")); [|done].
  by rewrite lookup_insert_eq.
Qed.

Lemma with_agent_lookup_ne (agent : SalesAgent.t) (d : gmap string pyval)
    (k : string) :
  k ≠ "assigned_agent" → with_agent agent d !! k = with_region d !! k.
Proof. intros Hk. unfold with_agent. by rewrite lookup_insert_ne. Qed.

Lemma with_agent_assigned (agent : SalesAgent.t) (d : gmap string pyval) :
  with_agent agent d !! "assigned_agent" = Some (PyInt (SalesAgent.id agent)).
Proof. unfold with_agent. by rewrite lookup_insert_eq. Qed.

Lemma contact_valid_with_region (d : gmap string pyval) :
  contact_valid d → contact_valid (with_region d).
Proof.
  unfold contact_valid, dict_get.
  by rewrite !with_region_lookup_ne.
Qed.

Lemma contact_valid_with_agent (agent : SalesAgent.t) (d : gmap string pyval) :
  contact_valid d → contact_valid (with_agent agent d).
Proof.
  intros H. apply contact_valid_with_region in H. revert H.
  unfold contact_valid, dict_get.
  by rewrite !with_agent_lookup_ne.
Qed.

Section Events.
Context {W : Type} (handle : ∀ c : call, W → resp c * W).

Lemma run_route_events (σ : W) (d : gmap string pyval) (ev : event) :
  ev ∈ trace_of (run handle (route d) σ) → made_call d ev.
Proof.
  intros Hev.
  destruct (route_cases handle σ d)
    as [(lead & σ1 & Hf) | [(σ1 & σ2 & Hf & Ha)
                           | (σ1 & σ2 & σ3 & agent & new_lead & Hf & Ha & Hc)]].
  - rewrite (run_route_update _ _ _ _ _ Hf) in Hev.
    each_event Hev; constructor.
  - rewrite (run_route_queue _ _ _ _ _ Hf Ha) in Hev.
    each_event Hev; constructor.
  - rewrite (run_route_assign _ _ _ _ _ _ _ _ Hf Ha Hc) in Hev.
    each_event Hev; constructor.
Qed.

(** A call is only made once both checks have passed. *)
Lemma run_process_lead_events (σ : W) (d : gmap string pyval) (ev : event) :
  ev ∈ trace_of (run handle (process_lead d) σ) →
  checks d = None ∧ made_call d ev.
Proof.
  rewrite run_process_lead. destruct (checks d) as [e|] eqn:Hchecks.
  - intros Hev. by apply elem_of_nil in Hev.
  - intros Hev. split; [done |]. by eapply run_route_events.
Qed.

Lemma run_process_lead_returned (σ : W) (d ret d' : gmap string pyval) :
  outcome_of (run handle (process_lead d) σ) = Returned (ret, d') →
  checks d = None
  ∧ (d' = d ∨ d' = with_region d ∨ ∃ agent, d' = with_agent agent d).
Proof.
  rewrite run_process_lead. destruct (checks d) as [e|] eqn:Hchecks; [done |].
  intros Hout. split; [done |]. revert Hout.
  destruct (route_cases handle σ d)
    as [(lead & σ1 & Hf) | [(σ1 & σ2 & Hf & Ha)
                           | (σ1 & σ2 & σ3 & agent & new_lead & Hf & Ha & Hc)]].
  - rewrite (run_route_update _ _ _ _ _ Hf). intros [= _ <-]. by left.
  - rewrite (run_route_queue _ _ _ _ _ Hf Ha). intros [= _ <-]. right. by left.
  - rewrite (run_route_assign _ _ _ _ _ _ _ _ Hf Ha Hc). intros [= _ <-].
    right. right. by exists agent.
Qed.

End Events.

(** * The validators against their described shapes *)

(** The assertions of [TestUtilityMethods]. *)
Example test_is_valid_email :
  is_valid_email (PyStr "test@example.com") = Returned true
  ∧ is_valid_email (PyStr "invalid") = Returned false
  ∧ is_valid_email (PyStr "") = Returned false
  ∧ is_valid_email PyNone = Returned false
  ∧ is_valid_email (PyStr "test@.com") = Returned false.
Proof. by repeat split. Qed.

Example test_is_valid_phone :
  is_valid_phone (PyStr "+1234567890") = Returned true
  ∧ is_valid_phone (PyStr "12345678") = Returned true
  ∧ is_valid_phone (PyStr "123") = Returned false
  ∧ is_valid_phone (PyStr "") = Returned false
  ∧ is_valid_phone PyNone = Returned false
  ∧ is_valid_phone (PyStr "abc1234567") = Returned false.
Proof. by repeat split. Qed.

Example test_determine_region :
  determine_region (PyStr "US") = PyStr "default-region"
  ∧ determine_region PyNone = PyStr "default-region"
  ∧ determine_region (PyStr "") = PyStr "default-region".
Proof. by repeat split. Qed.

Lemma is_valid_email_matches (s : string) :
  is_valid_email (PyStr s) = Returned (Re.matches email_regex s).
Proof. by destruct s. Qed.

Lemma is_valid_phone_matches (s : string) :
  is_valid_phone (PyStr s) = Returned (Re.matches phone_regex s).
Proof. by destruct s. Qed.

(** C7.  [is_valid_email] is false on [None] and on the empty text; on
    every text it returns a boolean, which is true exactly when the
    text is one or more characters other than ['@'], then ['@'], then
    one or more characters other than ['@'], then ['.'], then one or
    more characters other than ['@'], and nothing else.  It is true on
    ["test@example.com"] and false on ["invalid"] and on [None]. *)
Theorem is_valid_email_spec :
  is_valid_email PyNone = Returned false
  ∧ is_valid_email (PyStr "") = Returned false
  ∧ (∀ s : string, ∃ b : bool,
       is_valid_email (PyStr s) = Returned b ∧ (b = true ↔ email_shape s))
  ∧ is_valid_email (PyStr "test@example.com") = Returned true
  ∧ is_valid_email (PyStr "invalid") = Returned false.
Proof.
  repeat split; try reflexivity.
  intros s. exists (Re.matches email_regex s).
  split; [apply is_valid_email_matches | apply email_regex_spec].
Qed.

(** What [is_valid_phone] accepts: the described shape, or the
    described shape followed by one newline. *)
Lemma is_valid_phone_spec :
  is_valid_phone PyNone = Returned false
  ∧ is_valid_phone (PyStr "") = Returned false
  ∧ (∀ s : string, ∃ b : bool,
       is_valid_phone (PyStr s) = Returned b
       ∧ (b = true ↔
          phone_shape s ∨ ∃ s', s = s' +:+ String Re.LF "" ∧ phone_shape s'))
  ∧ is_valid_phone (PyStr "+1234567890") = Returned true
  ∧ is_valid_phone (PyStr "123") = Returned false.
Proof.
  repeat split; try reflexivity.
  intros s. exists (Re.matches phone_regex s).
  split; [apply is_valid_phone_matches | apply phone_regex_spec].
Qed.

(** C8.  [is_valid_phone] is true on ["1234567"] followed by a newline,
    which is not an optional ['+'] followed by 7 to 15 decimal digits
    and nothing else: the [$] of the pattern also matches just before a
    final newline. *)
Theorem is_valid_phone_trailing_newline :
  is_valid_phone (PyStr ("1234567" +:+ String Re.LF "")) = Returned true
  ∧ ¬ phone_shape ("1234567" +:+ String Re.LF "").
Proof. split; [reflexivity | apply phone_shape_no_LF]. Qed.

(** * The workflow *)

Section Claims.
Context {W : Type} (handle : ∀ c : call, W → resp c * W).

(** C1.  On a submission that passes the contact-presence check,
    [process_lead] raises [ValidationException] with
    [{'error': 'Invalid email or phone format'}] if and only if it is
    not the case that both [is_valid_email(email)] and
    [is_valid_phone(phone)] hold; in particular it raises it, before
    any call, whenever one of the two fields is empty or absent.
    The submission is one of the data model: its email and phone are
    texts when they are present. *)
Theorem format_check_iff (σ : W) (d : gmap string pyval) :
  LeadSubmission d →
  truthy (dict_get d "email") || truthy (dict_get d "phone") = true →
  (outcome_of (run handle (process_lead d) σ) = Raised format_failure
   ↔ ¬ (is_valid_email (dict_get d "email") = Returned true
        ∧ is_valid_phone (dict_get d "phone") = Returned true))
  ∧ (truthy (dict_get d "email") = false ∨ truthy (dict_get d "phone") = false
     → run handle (process_lead d) σ = ([], Raised format_failure, σ)).
Proof.
  intros Hsub Hpresent.
  destruct (is_valid_email_total _ (email_optional_str _ Hsub)) as [be He].
  destruct (is_valid_phone_total _ (phone_optional_str _ Hsub)) as [bp Hp].
  assert (Hchecks : checks d = if be && bp then None else Some format_failure).
  { unfold checks. rewrite He, Hp.
    apply orb_true_iff in Hpresent as [-> | ->];
      rewrite ?andb_false_r; cbn [negb andb]; by destruct be, bp. }
  rewrite run_process_lead, Hchecks, He, Hp.
  destruct be, bp; cbn [andb].
  - destruct (run_route_returned handle σ d) as (ev & tr & ret & d' & σ' & ->).
    rewrite (is_valid_email_truthy _ He), (is_valid_phone_truthy _ Hp).
    split; [| by intros [? | ?]].
    split; [done |]. intros Hnot. by destruct Hnot.
  - split; [| done]. split; [| done]. by intros _ [_ ?].
  - split; [| done]. split; [| done]. by intros _ [? _].
  - split; [| done]. split; [| done]. by intros _ [? _].
Qed.

(** C3.  When both email and phone are empty or absent,
    [process_lead] raises [ValidationException] with
    [{'error': 'Lead must have email or phone number'}]; and whenever
    it raises a [ValidationException], no collaborator has been
    called and the collaborators are in the state they were in. *)
Theorem presence_check_before_any_call (σ : W) (d : gmap string pyval) :
  (truthy (dict_get d "email") = false → truthy (dict_get d "phone") = false →
   run handle (process_lead d) σ = ([], Raised presence_failure, σ))
  ∧ (∀ messages,
       outcome_of (run handle (process_lead d) σ)
       = Raised (ValidationException messages) →
       trace_of (run handle (process_lead d) σ) = []
       ∧ world_of (run handle (process_lead d) σ) = σ).
Proof.
  rewrite run_process_lead. split.
  - intros He Hp. unfold checks. by rewrite He, Hp.
  - intros messages. destruct (checks d) as [e|]; [done |].
    by destruct (run_route_returned handle σ d) as (ev & tr & ret & d' & σ' & ->).
Qed.

(** C5.  On a valid submission for which the store finds an existing
    record, the calls of [process_lead] are the lookup and then one
    [update] with the record's id and the submission as it came (no
    region is computed), and nothing else: the agent directory is not
    asked, nothing is created, queued, notified or logged.  It
    returns [{'message': 'Lead updated'}] and leaves the submission
    as it was. *)
Theorem existing_lead_is_updated (σ σ1 : W) (d : gmap string pyval)
    (lead : StoredLead.t) :
  is_valid_email (dict_get d "email") = Returned true →
  is_valid_phone (dict_get d "phone") = Returned true →
  handle (find_call d) σ = (Some lead, σ1) →
  run handle (process_lead d) σ =
  ([Event d (find_call d); Event d (update (StoredLead.id lead) d)],
   Returned ({[ "message" := PyStr "Lead updated" ]}, d),
   (handle (update (StoredLead.id lead) d) σ1).2).
Proof.
  intros He Hp Hfind.
  rewrite run_process_lead, (proj2 (checks_None d) (conj He Hp)).
  by apply run_route_update.
Qed.

(** C6, as amended.  On a valid submission that the store does not
    know and that arrives without [assigned_agent], when the agent
    directory has no available agent, the calls of [process_lead] are
    the lookup, the question to the directory and then one
    [save_to_waiting_queue] with the submission, computed region
    included.  It returns [{'message': 'No available sales agents.
    Lead added to waiting queue.'}], and the queued submission has no
    [assigned_agent]. *)
Theorem no_agent_lead_is_queued (σ σ1 σ2 : W) (d : gmap string pyval) :
  d !! "assigned_agent" = None →
  is_valid_email (dict_get d "email") = Returned true →
  is_valid_phone (dict_get d "phone") = Returned true →
  handle (find_call d) σ = (None, σ1) →
  handle get_best_available_agent σ1 = (None, σ2) →
  run handle (process_lead d) σ =
  ([Event d (find_call d);
    Event (with_region d) get_best_available_agent;
    Event (with_region d) (save_to_waiting_queue (with_region d))],
   Returned ({[ "message" :=
                  PyStr "No available sales agents. Lead added to waiting queue." ]},
             with_region d),
   (handle (save_to_waiting_queue (with_region d)) σ2).2)
  ∧ with_region d !! "assigned_agent" = None.
Proof.
  intros Hfresh He Hp Hfind Hagent. split.
  - rewrite run_process_lead, (proj2 (checks_None d) (conj He Hp)).
    apply (run_route_queue _ _ _ _ _ Hfind Hagent).
  - by rewrite with_region_lookup_ne.
Qed.

(** C4.  On a valid submission that the store does not know, when
    the agent directory returns an agent, [process_lead] puts the
    agent's id in the submission as [assigned_agent], then calls
    [create] once with the submission, then [send] once with the
    agent's id and ["New lead assigned: "] followed by the name of
    the created lead, then [log_lead_process] once with the id of the
    created lead, the agent's id and ["Lead assigned successfully"],
    in that order, and returns [{'message': 'New lead created and
    assigned', 'assigned_to': <agent name>}]. *)
Theorem new_lead_is_assigned (σ σ1 σ2 σ3 : W) (d : gmap string pyval)
    (agent : SalesAgent.t) (new_lead : StoredLead.t) :
  is_valid_email (dict_get d "email") = Returned true →
  is_valid_phone (dict_get d "phone") = Returned true →
  handle (find_call d) σ = (None, σ1) →
  handle get_best_available_agent σ1 = (Some agent, σ2) →
  handle (create (with_agent agent d)) σ2 = (new_lead, σ3) →
  run handle (process_lead d) σ =
  ([Event d (find_call d);
    Event (with_region d) get_best_available_agent;
    Event (with_agent agent d) (create (with_agent agent d));
    Event (with_agent agent d)
      (send (SalesAgent.id agent)
            ("New lead assigned: " +:+ StoredLead.name new_lead));
    Event (with_agent agent d)
      (log_lead_process (StoredLead.id new_lead) (SalesAgent.id agent)
                        "Lead assigned successfully")],
   Returned ({[ "message" := PyStr "New lead created and assigned";
                "assigned_to" := PyStr (SalesAgent.name agent) ]},
             with_agent agent d),
   (handle (log_call agent new_lead)
      (handle (send_call agent new_lead) σ3).2).2)
  ∧ with_agent agent d !! "assigned_agent" = Some (PyInt (SalesAgent.id agent)).
Proof.
  intros He Hp Hfind Hagent Hcreate. split.
  - rewrite run_process_lead, (proj2 (checks_None d) (conj He Hp)).
    apply (run_route_assign _ _ _ _ _ _ _ _ Hfind Hagent Hcreate).
  - apply with_agent_assigned.
Qed.

(** C2, as amended.  A submission of the data model (it arrives
    without [region]) reaches the store as follows: [update] receives
    it as it came, with no region computed; [save_to_waiting_queue]
    and [create] receive it with [region] present if and only if
    [location] is supplied and non-empty, and a present [region] is
    ["default-region"] whatever the location. *)
Theorem region_of_stored_submission (σ : W) (d : gmap string pyval) (ev : event) :
  LeadSubmission d →
  ev ∈ trace_of (run handle (process_lead d) σ) →
  match ev_call ev with
  | update _ p => p = d ∧ p !! "region" = None
  | save_to_waiting_queue p | create p =>
      (is_Some (p !! "region") ↔ truthy (dict_get d "location") = true)
      ∧ (∀ v, p !! "region" = Some v → v = PyStr "default-region")
  | _ => True
  end.
Proof.
  intros Hsub [_ Hmade]%run_process_lead_events.
  pose proof (region_not_yet _ Hsub) as Hregion.
  destruct Hmade; cbn [ev_call find_call send_call log_call]; try done.
  - rewrite with_region_region, Hregion.
    destruct (truthy (dict_get d "location")).
    + split; [by split | by intros v [= <-]].
    + split; [| done]. split; [by intros [? ?] | done].
  - rewrite with_agent_lookup_ne by done.
    rewrite with_region_region, Hregion.
    destruct (truthy (dict_get d "location")).
    + split; [by split | by intros v [= <-]].
    + split; [| done]. split; [by intros [? ?] | done].
Qed.

(** C9.  At every collaborator call of [process_lead], the dict holds
    an email and a phone on which [is_valid_email] and
    [is_valid_phone] are true, and so does the submission that the
    call hands to the store.  (A run that raises makes no call.) *)
Theorem contact_valid_at_every_call (σ : W) (d : gmap string pyval) (ev : event) :
  ev ∈ trace_of (run handle (process_lead d) σ) →
  contact_valid (ev_lead_data ev)
  ∧ (∀ p, stored (ev_call ev) = Some p → contact_valid p).
Proof.
  intros [Hvalid%contact_valid_checks Hmade]%run_process_lead_events.
  pose proof (contact_valid_with_region _ Hvalid) as Hregion.
  destruct Hmade;
    cbn [ev_call ev_lead_data find_call send_call log_call stored];
    (split; [| intros p [= <-] || intros p [=]]);
    auto using contact_valid_with_agent.
Qed.

(** C10.  When [location] is supplied but is the empty text,
    [process_lead] adds no [region] on any path: at every call, in
    every submission handed to the store and in the dict it leaves,
    [region] is what it was in the submission. *)
Theorem empty_location_adds_no_region (σ : W) (d : gmap string pyval) :
  d !! "location" = Some (PyStr "") →
  (∀ ev, ev ∈ trace_of (run handle (process_lead d) σ) →
     ev_lead_data ev !! "region" = d !! "region"
     ∧ (∀ p, stored (ev_call ev) = Some p → p !! "region" = d !! "region"))
  ∧ (∀ ret d', outcome_of (run handle (process_lead d) σ) = Returned (ret, d') →
       d' !! "region" = d !! "region").
Proof.
  intros Hloc.
  assert (Hsame : with_region d = d).
  { unfold with_region, dict_get. by rewrite Hloc. }
  assert (Hagent : ∀ agent, with_agent agent d !! "region" = d !! "region").
  { intros agent. rewrite with_agent_lookup_ne by done. by rewrite Hsame. }
  split.
  - intros ev [_ Hmade]%run_process_lead_events.
    destruct Hmade;
      cbn [ev_call ev_lead_data find_call send_call log_call stored];
      rewrite ?Hsame;
      (split; [| intros p [= <-] || intros p [=]]); auto.
  - intros ret d' [_ [-> | [-> | [agent ->]]]]%run_process_lead_returned;
      rewrite ?Hsame; auto.
Qed.

End Claims.

Lemma valid_lead_data_submission : LeadSubmission valid_lead_data.
Proof. split; try by_evaluation; try exact I. by exists "John". Defined.

Lemma valid_lead_data_US_submission : LeadSubmission valid_lead_data_US.
Proof. split; try by_evaluation; try exact I. by exists "John". Defined.

Lemma lead_data_with_email_only_submission :
  LeadSubmission lead_data_with_email_only.
Proof. split; try by_evaluation; try exact I. by exists "John". Defined.

Lemma lead_data_with_email_only_rejected :
  run (mock None None john2) (process_lead lead_data_with_email_only) tt
  = ([], Raised format_failure, tt).
Proof.
  destruct (format_check_iff (mock None None john2) tt lead_data_with_email_only)
    as [_ Hone].
  - apply lead_data_with_email_only_submission.
  - by_evaluation.
  - apply Hone. right. by_evaluation.
Defined.

Lemma lead_data_no_contact_rejected :
  run (mock None None john2) (process_lead lead_data_no_contact) tt
  = ([], Raised presence_failure, tt)
  ∧ trace_of (run (mock None None john2) (process_lead lead_data_no_contact) tt) = [].
Proof.
  destruct (presence_check_before_any_call (mock None None john2) tt
              lead_data_no_contact) as [Hraise Hquiet].
  split.
  - apply Hraise; by_evaluation.
  - apply (Hquiet {[ "error" := "Lead must have email or phone number" ]}).
    by_evaluation.
Defined.

Lemma valid_lead_data_US_updated :
  run (mock (Some john1) None john2) (process_lead valid_lead_data_US) tt
  = ([Event valid_lead_data_US (find_call valid_lead_data_US);
      Event valid_lead_data_US (update 1 valid_lead_data_US)],
     Returned ({[ "message" := PyStr "Lead updated" ]}, valid_lead_data_US),
     tt).
Proof.
  apply (existing_lead_is_updated (mock (Some john1) None john2) tt tt
           valid_lead_data_US john1); by_evaluation.
Defined.

Lemma valid_lead_data_US_queued :
  run (mock None None john2) (process_lead valid_lead_data_US) tt
  = ([Event valid_lead_data_US (find_call valid_lead_data_US);
      Event (with_region valid_lead_data_US) get_best_available_agent;
      Event (with_region valid_lead_data_US)
        (save_to_waiting_queue (with_region valid_lead_data_US))],
     Returned ({[ "message" :=
                    PyStr "No available sales agents. Lead added to waiting queue." ]},
               with_region valid_lead_data_US),
     tt)
  ∧ with_region valid_lead_data_US !! "assigned_agent" = None.
Proof.
  apply (no_agent_lead_is_queued (mock None None john2) tt tt tt valid_lead_data_US);
    by_evaluation.
Defined.

(** C6 fails as stated: a valid submission that the store does not know
    and that already carries an [assigned_agent] is queued, when no
    agent is available, with that [assigned_agent] still in it. *)
Lemma queued_with_arrived_agent :
  is_valid_email (dict_get lead_data_with_agent "email") = Returned true
  ∧ is_valid_phone (dict_get lead_data_with_agent "phone") = Returned true
  ∧ run (mock None None john2) (process_lead lead_data_with_agent) tt
    = ([Event lead_data_with_agent (find_call lead_data_with_agent);
        Event lead_data_with_agent get_best_available_agent;
        Event lead_data_with_agent (save_to_waiting_queue lead_data_with_agent)],
       Returned ({[ "message" :=
                      PyStr "No available sales agents. Lead added to waiting queue." ]},
                 lead_data_with_agent),
       tt)
  ∧ lead_data_with_agent !! "assigned_agent" = Some (PyInt 9).
Proof. repeat split; by_evaluation. Qed.

Lemma valid_lead_data_US_assigned :
  run (mock None (Some agent1) john2) (process_lead valid_lead_data_US) tt
  = ([Event valid_lead_data_US (find_call valid_lead_data_US);
      Event (with_region valid_lead_data_US) get_best_available_agent;
      Event (with_agent agent1 valid_lead_data_US)
        (create (with_agent agent1 valid_lead_data_US));
      Event (with_agent agent1 valid_lead_data_US)
        (send 1 "New lead assigned: John");
      Event (with_agent agent1 valid_lead_data_US)
        (log_lead_process 2 1 "Lead assigned successfully")],
     Returned ({[ "message" := PyStr "New lead created and assigned";
                  "assigned_to" := PyStr "Agent1" ]},
               with_agent agent1 valid_lead_data_US),
     tt)
  ∧ with_agent agent1 valid_lead_data_US !! "assigned_agent" = Some (PyInt 1).
Proof.
  apply (new_lead_is_assigned (mock None (Some agent1) john2) tt tt tt tt
           valid_lead_data_US agent1 john2); by_evaluation.
Defined.

Lemma queue_run_of_valid_lead_data_US :
  trace_of (run (mock None None john2) (process_lead valid_lead_data_US) tt)
  = [Event valid_lead_data_US (find_call valid_lead_data_US);
     Event (with_region valid_lead_data_US) get_best_available_agent;
     Event (with_region valid_lead_data_US)
       (save_to_waiting_queue (with_region valid_lead_data_US))].
Proof. by_evaluation. Qed.

Lemma stored_region_of_valid_lead_data_US :
  with_region valid_lead_data_US !! "region" = Some (PyStr "default-region").
Proof.
  destruct (region_of_stored_submission (mock None None john2) tt valid_lead_data_US
              (Event (with_region valid_lead_data_US)
                 (save_to_waiting_queue (with_region valid_lead_data_US))))
    as [Hiff Hvalue].
  - apply valid_lead_data_US_submission.
  - rewrite queue_run_of_valid_lead_data_US.
    apply list_elem_of_further, list_elem_of_further, list_elem_of_here.
  - destruct (proj2 Hiff) as [v Hv]; [by_evaluation |].
    rewrite Hv. f_equal. by apply Hvalue.
Defined.

(** C2 fails as stated: with a location supplied and an existing record
    in the store, [update] receives a submission that has a location
    and no region. *)
Lemma region_iff_location_fails_on_update :
  trace_of (run (mock (Some john1) None john2) (process_lead valid_lead_data_US) tt)
  = [Event valid_lead_data_US (find_call valid_lead_data_US);
     Event valid_lead_data_US (update 1 valid_lead_data_US)]
  ∧ valid_lead_data_US !! "location" = Some (PyStr "US")
  ∧ ¬ (is_Some (valid_lead_data_US !! "region")
       ↔ is_Some (valid_lead_data_US !! "location")).
Proof.
  split; [by_evaluation |]. split; [by_evaluation |].
  intros [_ Hregion].
  destruct Hregion as [v Hv]; [by eexists; by_evaluation |].
  vm_compute in Hv. discriminate Hv.
Qed.

Lemma valid_lead_data_contact_valid_at_lookup :
  contact_valid valid_lead_data
  ∧ (∀ p, stored (find_call valid_lead_data) = Some p → contact_valid p).
Proof.
  apply (contact_valid_at_every_call (mock None None john2) tt valid_lead_data
           (Event valid_lead_data (find_call valid_lead_data))).
  vm_compute. apply list_elem_of_here.
Defined.

Lemma blank_location_leaves_region :
  (∀ ev, ev ∈ trace_of (run (mock None (Some agent1) john2)
                            (process_lead valid_lead_data_blank_location) tt) →
     ev_lead_data ev !! "region" = valid_lead_data_blank_location !! "region"
     ∧ (∀ p, stored (ev_call ev) = Some p →
          p !! "region" = valid_lead_data_blank_location !! "region"))
  ∧ (∀ ret d', outcome_of (run (mock None (Some agent1) john2)
                              (process_lead valid_lead_data_blank_location) tt)
               = Returned (ret, d') →
       d' !! "region" = valid_lead_data_blank_location !! "region").
Proof.
  apply (empty_location_adds_no_region (mock None (Some agent1) john2) tt
           valid_lead_data_blank_location).
  by_evaluation.
Defined.

(** * Further properties of the validators *)

Lemma str_count_app (c : ascii) (s1 s2 : string) :
  str_count c (s1 +:+ s2) = str_count c s1 + str_count c s2.
Proof.
  induction s1 as [|c' s1 IH]; [done |].
  rewrite str_app_cons. cbn [str_count]. rewrite IH. lia.
Qed.

Lemma str_count_none (P : ascii → bool) (c : ascii) (s : string) :
  P c = false → str_all P s = true → str_count c s = 0.
Proof.
  intros Hc. induction s as [|c' s IH]; [done |].
  cbn [str_all str_count]. intros [Hc' Hs]%andb_true_iff.
  rewrite (IH Hs). destruct (Ascii.eqb_spec c' c) as [-> | _]; [congruence | done].
Qed.

Lemma str_all_weaken (P Q : ascii → bool) (s : string) :
  (∀ c, P c = true → Q c = true) → str_all P s = true → str_all Q s = true.
Proof.
  intros HPQ. induction s as [|c s IH]; [done |].
  cbn [str_all]. intros [Hc Hs]%andb_true_iff. by rewrite (HPQ c Hc), IH.
Qed.

Lemma is_valid_email_shape (s : string) :
  is_valid_email (PyStr s) = Returned true ↔ email_shape s.
Proof.
  rewrite is_valid_email_matches, <- email_regex_spec.
  split; [by intros [= ->] | by intros ->].
Qed.

Lemma is_valid_phone_shape (s : string) :
  is_valid_phone (PyStr s) = Returned true ↔
  phone_shape s ∨ ∃ s', s = s' +:+ String Re.LF "" ∧ phone_shape s'.
Proof.
  rewrite is_valid_phone_matches, <- phone_regex_spec.
  split; [by intros [= ->] | by intros ->].
Qed.

(** A text that [is_valid_email] accepts has exactly one ['@'] and at
    least five characters. *)
Theorem valid_email_one_at (s : string) :
  is_valid_email (PyStr s) = Returned true →
  str_count "@" s = 1 ∧ 5 <= String.length s.
Proof.
  intros (l & d & t & -> & [Hl Hla] & [Hd Hda] & [Ht Hta])%is_valid_email_shape.
  apply str_nonempty_length in Hl, Hd, Ht.
  rewrite !str_count_app, !str_length_app.
  rewrite (str_count_none not_at "@" l), (str_count_none not_at "@" d),
    (str_count_none not_at "@" t) by done.
  cbn. lia.
Qed.

Lemma phone_shape_chars (s : string) :
  phone_shape s →
  str_all phone_char s = true ∧ 7 <= String.length s ∧ String.length s <= 16.
Proof.
  intros (ds & Hs & Hall & Hlo & Hhi).
  assert (str_all phone_char ds = true) as Hds.
  { apply (str_all_weaken decimal_digit); [| done].
    intros c Hc. unfold phone_char. by rewrite Hc. }
  destruct Hs as [-> | ->].
  - split; [done | lia].
  - rewrite str_all_app, str_length_app, Hds.
    split; [reflexivity | cbn; lia].
Qed.

(** A text that [is_valid_phone] accepts has 7 to 17 characters, each a
    decimal digit, ['+'] or a newline. *)
Theorem valid_phone_bounds (s : string) :
  is_valid_phone (PyStr s) = Returned true →
  str_all phone_char s = true
  ∧ 7 <= String.length s ∧ String.length s <= 17.
Proof.
  intros [H | (s' & -> & H)]%is_valid_phone_shape;
    apply phone_shape_chars in H as (Hall & Hlo & Hhi).
  - split; [done | lia].
  - rewrite str_all_app, str_length_app, Hall.
    split; [reflexivity | cbn; lia].
Qed.

(** No text passes both validators: on a text that [is_valid_email]
    accepts, [is_valid_phone] returns [False], so a submission whose
    email and phone are the same text is never accepted. *)
Theorem valid_email_is_no_phone (s : string) :
  is_valid_email (PyStr s) = Returned true →
  is_valid_phone (PyStr s) = Returned false.
Proof.
  intros [Hat _]%valid_email_one_at.
  rewrite is_valid_phone_matches.
  destruct (Re.matches phone_regex s) eqn:Hphone; [| done].
  assert (is_valid_phone (PyStr s) = Returned true) as [Hchars _]%valid_phone_bounds
    by (by rewrite is_valid_phone_matches, Hphone).
  rewrite (str_count_none phone_char "@" s) in Hat by done.
  discriminate Hat.
Qed.

(** [is_valid_email] keeps accepting a text when characters other than
    ['@'] are put before it or after it (blanks and newlines
    included). *)
Theorem valid_email_padding (s before after : string) :
  is_valid_email (PyStr s) = Returned true →
  str_all not_at before = true → str_all not_at after = true →
  is_valid_email (PyStr (before +:+ s +:+ after)) = Returned true.
Proof.
  intros (l & d & t & -> & [Hl Hla] & [Hd Hda] & [Ht Hta])%is_valid_email_shape
    Hb Ha.
  apply str_nonempty_length in Hl, Hd, Ht.
  apply is_valid_email_shape.
  exists (before +:+ l), d, (t +:+ after).
  split; [by rewrite !str_app_assoc |].
  unfold some_non_at.
  rewrite !str_nonempty_length, !str_length_app, !str_all_app, Hb, Ha, Hla, Hta.
  repeat split; try done; lia.
Qed.

Lemma valid_email_one_at_witness :
  str_count "@" "test@example.com" = 1 ∧ 5 <= String.length "test@example.com".
Proof. apply (valid_email_one_at "test@example.com"). reflexivity. Defined.

Lemma valid_phone_bounds_witness :
  str_all phone_char "+1234567890" = true
  ∧ 7 <= String.length "+1234567890" ∧ String.length "+1234567890" <= 17.
Proof. apply (valid_phone_bounds "+1234567890"). reflexivity. Defined.

Lemma valid_email_is_no_phone_witness :
  is_valid_phone (PyStr "test@example.com") = Returned false.
Proof. apply (valid_email_is_no_phone "test@example.com"). reflexivity. Defined.

Lemma valid_email_padding_witness :
  is_valid_email (PyStr (" " +:+ "test@example.com" +:+ String Re.LF ""))
  = Returned true.
Proof.
  apply (valid_email_padding "test@example.com" " " (String Re.LF ""));
    reflexivity.
Defined.

(** * Further properties of [process_lead] *)

Lemma is_valid_email_raised (v : pyval) (e : exn) :
  is_valid_email v = Raised e → e = type_error ∧ ∃ n, v = PyInt n ∧ n ≠ 0%Z.
Proof.
  destruct v as [|s|n]; [done | by destruct s |].
  unfold is_valid_email. cbn [truthy].
  destruct (Z.eqb_spec n 0) as [-> | Hn]; [done |].
  intros [= <-]. split; [done | by exists n].
Qed.

Lemma is_valid_phone_raised (v : pyval) (e : exn) :
  is_valid_phone v = Raised e → e = type_error ∧ ∃ n, v = PyInt n ∧ n ≠ 0%Z.
Proof.
  destruct v as [|s|n]; [done | by destruct s |].
  unfold is_valid_phone. cbn [truthy].
  destruct (Z.eqb_spec n 0) as [-> | Hn]; [done |].
  intros [= <-]. split; [done | by exists n].
Qed.

Lemma is_valid_email_int (n : Z) :
  n ≠ 0%Z → is_valid_email (PyInt n) = Raised type_error.
Proof.
  intros Hn. unfold is_valid_email. cbn [truthy].
  by destruct (Z.eqb_spec n 0).
Qed.

Lemma is_valid_phone_int (n : Z) :
  n ≠ 0%Z → is_valid_phone (PyInt n) = Raised type_error.
Proof.
  intros Hn. unfold is_valid_phone. cbn [truthy].
  by destruct (Z.eqb_spec n 0).
Qed.

Lemma checks_Some (d : gmap string pyval) (e : exn) :
  checks d = Some e →
  e = presence_failure ∨ e = format_failure ∨ e = type_error.
Proof.
  unfold checks.
  destruct (negb (truthy (dict_get d "email")) && negb (truthy (dict_get d "phone")));
    [intros [= <-]; by left |].
  destruct (is_valid_email (dict_get d "email")) as [[] | e1] eqn:He.
  - destruct (is_valid_phone (dict_get d "phone")) as [[] | e2] eqn:Hp.
    + done.
    + intros [= <-]. right. by left.
    + intros [= <-]. right. right. by apply is_valid_phone_raised in Hp as [-> _].
  - intros [= <-]. right. by left.
  - intros [= <-]. right. right. by apply is_valid_email_raised in He as [-> _].
Qed.

Lemma with_region_location (d : gmap string pyval) :
  dict_get (with_region d) "location" = dict_get d "location".
Proof. unfold dict_get. by rewrite with_region_lookup_ne. Qed.

Lemma with_region_idemp (d : gmap string pyval) :
  with_region (with_region d) = with_region d.
Proof.
  unfold with_region at 1. rewrite with_region_location.
  destruct (truthy (dict_get d "location")) eqn:Hloc; [| done].
  apply insert_id. by rewrite with_region_region, Hloc.
Qed.

Lemma with_region_with_agent (agent : SalesAgent.t) (d : gmap string pyval) :
  with_region (with_agent agent d) = with_agent agent d.
Proof.
  unfold with_region at 1.
  assert (dict_get (with_agent agent d) "location" = dict_get d "location") as ->.
  { unfold dict_get. rewrite with_agent_lookup_ne by done.
    by rewrite with_region_lookup_ne. }
  destruct (truthy (dict_get d "location")) eqn:Hloc; [| done].
  apply insert_id. rewrite with_agent_lookup_ne by done.
  by rewrite with_region_region, Hloc.
Qed.

Lemma updated_message_ne_queued : updated_message ≠ queued_message.
Proof. intros H. by apply (f_equal (λ m, m !! "message")) in H. Qed.

Lemma updated_message_ne_assigned (agent : SalesAgent.t) :
  updated_message ≠ assigned_message agent.
Proof.
  intros H. apply (f_equal (λ m, m !! "message")) in H.
  unfold updated_message, assigned_message in H.
  rewrite lookup_insert_eq in H. by rewrite lookup_singleton_eq in H.
Qed.

Lemma queued_message_ne_assigned (agent : SalesAgent.t) :
  queued_message ≠ assigned_message agent.
Proof.
  intros H. apply (f_equal (λ m, m !! "message")) in H.
  unfold queued_message, assigned_message in H.
  rewrite lookup_insert_eq in H. by rewrite lookup_singleton_eq in H.
Qed.

Section Further.
Context {W : Type} (handle : ∀ c : call, W → resp c * W).

(** With collaborators whose calls all complete ([run]), whatever
    [process_lead] raises comes from its own checks: it is raised
    before any collaborator call and leaves the collaborators as they
    were, and it is one of the two validation failures or the
    [TypeError] of [re.match], never the [KeyError] of
    [lead_data['location']]. *)
Theorem raise_is_before_any_call (σ : W) (d : gmap string pyval) (e : exn) :
  outcome_of (run handle (process_lead d) σ) = Raised e →
  run handle (process_lead d) σ = ([], Raised e, σ)
  ∧ (e = presence_failure ∨ e = format_failure ∨ e = type_error).
Proof.
  rewrite run_process_lead. destruct (checks d) as [e'|] eqn:Hchecks.
  - intros [= <-]. split; [done | by apply (checks_Some d)].
  - by destruct (run_route_returned handle σ d) as (ev & tr & ret & d' & σ' & ->).
Qed.

(** A non-zero integer as email, or as phone beside a valid email,
    makes [process_lead] raise [TypeError], before any call. *)
Theorem non_text_contact_raises_type_error (σ : W) (d : gmap string pyval) (n : Z) :
  n ≠ 0%Z →
  dict_get d "email" = PyInt n
  ∨ (is_valid_email (dict_get d "email") = Returned true
     ∧ dict_get d "phone" = PyInt n) →
  run handle (process_lead d) σ = ([], Raised type_error, σ).
Proof.
  intros Hn H. rewrite run_process_lead.
  assert (checks d = Some type_error) as ->; [| done].
  unfold checks. destruct H as [He | [He Hp]].
  - rewrite He, (is_valid_email_int n Hn). cbn [truthy].
    by destruct (Z.eqb_spec n 0).
  - rewrite He, Hp, (is_valid_phone_int n Hn), (is_valid_email_truthy _ He).
    done.
Qed.

(** [or] short-circuits: when the contact-presence check passes and
    [is_valid_email] returns [False], [process_lead] raises the format
    failure without validating the phone, whatever the phone is (for
    one that is not a text there is no [TypeError]). *)
Theorem invalid_email_skips_phone (σ : W) (d : gmap string pyval) :
  truthy (dict_get d "email") || truthy (dict_get d "phone") = true →
  is_valid_email (dict_get d "email") = Returned false →
  run handle (process_lead d) σ = ([], Raised format_failure, σ).
Proof.
  intros Hpresent He. rewrite run_process_lead.
  assert (checks d = Some format_failure) as ->; [| done].
  unfold checks. rewrite He.
  by apply orb_true_iff in Hpresent as [-> | ->]; rewrite ?andb_false_r.
Qed.

(** The returned message tells the calls that were made.  A run that
    returns took one of three routes: ["Lead updated"], after the
    lookup and one [update], with the dict untouched; the waiting-queue
    message, after the lookup, the question to the directory and one
    [save_to_waiting_queue]; or the assignment message, after the
    lookup, the question to the directory, [create], [send] and
    [log_lead_process], in that order. *)
Theorem return_tells_the_calls (σ : W) (d ret d' : gmap string pyval) :
  outcome_of (run handle (process_lead d) σ) = Returned (ret, d') →
  (ret = updated_message ∧ d' = d
   ∧ ∃ id, calls_of (trace_of (run handle (process_lead d) σ))
           = [find_call d; update id d])
  ∨ (ret = queued_message ∧ d' = with_region d
     ∧ calls_of (trace_of (run handle (process_lead d) σ))
       = [find_call d; get_best_available_agent;
          save_to_waiting_queue (with_region d)])
  ∨ (∃ agent new_lead,
       ret = assigned_message agent ∧ d' = with_agent agent d
       ∧ calls_of (trace_of (run handle (process_lead d) σ))
         = [find_call d; get_best_available_agent;
            create (with_agent agent d);
            send_call agent new_lead; log_call agent new_lead]).
Proof.
  rewrite run_process_lead. destruct (checks d) as [e|]; [done |].
  destruct (route_cases handle σ d)
    as [(lead & σ1 & Hf) | [(σ1 & σ2 & Hf & Ha)
                           | (σ1 & σ2 & σ3 & agent & new_lead & Hf & Ha & Hc)]].
  - rewrite (run_route_update _ _ _ _ _ Hf). intros [= <- <-].
    left. repeat split. by exists (StoredLead.id lead).
  - rewrite (run_route_queue _ _ _ _ _ Hf Ha). intros [= <- <-].
    right. left. by repeat split.
  - rewrite (run_route_assign _ _ _ _ _ _ _ _ Hf Ha Hc). intros [= <- <-].
    right. right. by exists agent, new_lead.
Qed.

(** Every run that returns hands exactly one submission to the store
    ([update], [save_to_waiting_queue] or [create]), and that
    submission is the dict as the run leaves it: nothing is changed
    after the dict has been handed over. *)
Theorem one_payload_the_final_dict (σ : W) (d ret d' : gmap string pyval) :
  outcome_of (run handle (process_lead d) σ) = Returned (ret, d') →
  payloads_of (trace_of (run handle (process_lead d) σ)) = [d'].
Proof.
  rewrite run_process_lead. destruct (checks d) as [e|]; [done |].
  destruct (route_cases handle σ d)
    as [(lead & σ1 & Hf) | [(σ1 & σ2 & Hf & Ha)
                           | (σ1 & σ2 & σ3 & agent & new_lead & Hf & Ha & Hc)]].
  - rewrite (run_route_update _ _ _ _ _ Hf). by intros [= _ <-].
  - rewrite (run_route_queue _ _ _ _ _ Hf Ha). by intros [= _ <-].
  - rewrite (run_route_assign _ _ _ _ _ _ _ _ Hf Ha Hc). by intros [= _ <-].
Qed.

(** [process_lead] writes no key of the submitted dict other than
    ['region'] and ['assigned_agent']: every other key holds, at every
    call and when the run returns, what it held in the submission. *)
Theorem other_keys_untouched (σ : W) (d : gmap string pyval) (k : string) :
  k ≠ "region" → k ≠ "assigned_agent" →
  (∀ ev, ev ∈ trace_of (run handle (process_lead d) σ) →
     ev_lead_data ev !! k = d !! k)
  ∧ (∀ ret d', outcome_of (run handle (process_lead d) σ) = Returned (ret, d') →
       d' !! k = d !! k).
Proof.
  intros Hregion Hagent.
  assert (Hr : with_region d !! k = d !! k) by by apply with_region_lookup_ne.
  assert (Ha : ∀ agent, with_agent agent d !! k = d !! k).
  { intros agent. by rewrite with_agent_lookup_ne. }
  split.
  - intros ev [_ Hmade]%run_process_lead_events.
    destruct Hmade; cbn [ev_lead_data]; auto.
  - intros ret d' [_ [-> | [-> | [agent ->]]]]%run_process_lead_returned; auto.
Qed.

(** For a new lead, a region that the submission already carries is
    replaced by ["default-region"] when [location] is non-empty, and
    kept as it is otherwise: this is the region of the submission
    handed to [save_to_waiting_queue] or [create]. *)
Theorem region_replaced_or_kept (σ : W) (d p : gmap string pyval) (ev : event) :
  ev ∈ trace_of (run handle (process_lead d) σ) →
  ev_call ev = save_to_waiting_queue p ∨ ev_call ev = create p →
  p !! "region" =
  if truthy (dict_get d "location") then Some (PyStr "default-region")
  else d !! "region".
Proof.
  intros [_ Hmade]%run_process_lead_events.
  destruct Hmade; cbn [ev_call find_call send_call log_call];
    intros [[=] | [=]]; subst p.
  - apply with_region_region.
  - rewrite with_agent_lookup_ne by done. apply with_region_region.
Qed.

(** On the update and waiting-queue routes [process_lead] neither sets
    nor clears ['assigned_agent']: the submission handed to [update] or
    [save_to_waiting_queue] carries the one it arrived with, if any. *)
Theorem assigned_agent_kept_unless_assigned (σ : W) (d p : gmap string pyval)
    (ev : event) :
  ev ∈ trace_of (run handle (process_lead d) σ) →
  (∃ id, ev_call ev = update id p) ∨ ev_call ev = save_to_waiting_queue p →
  p !! "assigned_agent" = d !! "assigned_agent".
Proof.
  intros [_ Hmade]%run_process_lead_events.
  destruct Hmade; cbn [ev_call find_call send_call log_call];
    intros [[? [=]] | [=]]; subst p; [done |].
  by apply with_region_lookup_ne.
Qed.

(** Processing again a dict that a run has queued or assigned: when
    the store finds nothing and no agent is available, the dict is
    queued exactly as the earlier run left it (with the region and any
    agent id that the earlier run put in). *)
Theorem requeued_as_left (σ σ' σ1 σ2 : W) (d ret d1 : gmap string pyval) :
  outcome_of (run handle (process_lead d) σ) = Returned (ret, d1) →
  ret ≠ updated_message →
  handle (find_call d1) σ' = (None, σ1) →
  handle get_best_available_agent σ1 = (None, σ2) →
  run handle (process_lead d1) σ' =
  ([Event d1 (find_call d1);
    Event d1 get_best_available_agent;
    Event d1 (save_to_waiting_queue d1)],
   Returned (queued_message, d1),
   (handle (save_to_waiting_queue d1) σ2).2).
Proof.
  intros Hret Hnew Hfind Hagent.
  pose proof (run_process_lead_returned handle _ _ _ _ Hret) as [Hchecks Hd1].
  apply contact_valid_checks in Hchecks.
  assert (Hfix : with_region d1 = d1 ∧ contact_valid d1).
  { destruct (return_tells_the_calls _ _ _ _ Hret)
      as [(-> & _) | [(_ & -> & _) | (agent & new_lead & _ & -> & _)]].
    - done.
    - split; [apply with_region_idemp | by apply contact_valid_with_region].
    - split; [apply with_region_with_agent | by apply contact_valid_with_agent]. }
  destruct Hfix as [Hfix (_ & _ & He & Hp)].
  rewrite run_process_lead, (proj2 (checks_None d1) (conj He Hp)).
  rewrite (run_route_queue _ _ _ _ _ Hfind Hagent). by rewrite Hfix.
Qed.

End Further.

Lemma lead_data_int_phone_rejected :
  run (mock None None john2) (process_lead lead_data_int_phone) tt
  = ([], Raised format_failure, tt).
Proof.
  apply (invalid_email_skips_phone (mock None None john2) tt lead_data_int_phone);
    by_evaluation.
Defined.

Lemma lead_data_int_email_type_error :
  run (mock None None john2) (process_lead lead_data_int_email) tt
  = ([], Raised type_error, tt).
Proof.
  apply (non_text_contact_raises_type_error (mock None None john2) tt
           lead_data_int_email 7); [done | left; by_evaluation].
Defined.

Lemma lead_data_int_email_raises_early :
  run (mock None None john2) (process_lead lead_data_int_email) tt
  = ([], Raised type_error, tt)
  ∧ (type_error = presence_failure ∨ type_error = format_failure
     ∨ type_error = type_error).
Proof.
  apply (raise_is_before_any_call (mock None None john2) tt lead_data_int_email).
  by_evaluation.
Defined.

Lemma updated_run_tells_its_calls :
  (updated_message = updated_message ∧ valid_lead_data_US = valid_lead_data_US
   ∧ ∃ id, calls_of (trace_of (run (mock (Some john1) None john2)
                                   (process_lead valid_lead_data_US) tt))
           = [find_call valid_lead_data_US; update id valid_lead_data_US])
  ∨ (updated_message = queued_message
     ∧ valid_lead_data_US = with_region valid_lead_data_US
     ∧ calls_of (trace_of (run (mock (Some john1) None john2)
                               (process_lead valid_lead_data_US) tt))
       = [find_call valid_lead_data_US; get_best_available_agent;
          save_to_waiting_queue (with_region valid_lead_data_US)])
  ∨ (∃ agent new_lead,
       updated_message = assigned_message agent
       ∧ valid_lead_data_US = with_agent agent valid_lead_data_US
       ∧ calls_of (trace_of (run (mock (Some john1) None john2)
                                 (process_lead valid_lead_data_US) tt))
         = [find_call valid_lead_data_US; get_best_available_agent;
            create (with_agent agent valid_lead_data_US);
            send_call agent new_lead; log_call agent new_lead]).
Proof.
  apply (return_tells_the_calls (mock (Some john1) None john2) tt
           valid_lead_data_US updated_message valid_lead_data_US).
  by_evaluation.
Defined.

Lemma assigned_run_one_payload :
  payloads_of (trace_of (run (mock None (Some agent1) john2)
                             (process_lead valid_lead_data_US) tt))
  = [with_agent agent1 valid_lead_data_US].
Proof.
  apply (one_payload_the_final_dict (mock None (Some agent1) john2) tt
           valid_lead_data_US (assigned_message agent1)).
  by_evaluation.
Defined.

Lemma assigned_run_keeps_name :
  (∀ ev, ev ∈ trace_of (run (mock None (Some agent1) john2)
                            (process_lead valid_lead_data_US) tt) →
     ev_lead_data ev !! "name" = valid_lead_data_US !! "name")
  ∧ (∀ ret d', outcome_of (run (mock None (Some agent1) john2)
                              (process_lead valid_lead_data_US) tt)
               = Returned (ret, d') →
       d' !! "name" = valid_lead_data_US !! "name").
Proof.
  by apply (other_keys_untouched (mock None (Some agent1) john2) tt
              valid_lead_data_US "name").
Defined.

Lemma queue_run_of_lead_data_resubmitted :
  trace_of (run (mock None None john2) (process_lead lead_data_resubmitted) tt)
  = [Event lead_data_resubmitted (find_call lead_data_resubmitted);
     Event (with_region lead_data_resubmitted) get_best_available_agent;
     Event (with_region lead_data_resubmitted)
       (save_to_waiting_queue (with_region lead_data_resubmitted))].
Proof. by_evaluation. Qed.

Lemma resubmitted_region_replaced :
  with_region lead_data_resubmitted !! "region" = Some (PyStr "default-region").
Proof.
  apply (region_replaced_or_kept (mock None None john2) tt lead_data_resubmitted
           (with_region lead_data_resubmitted)
           (Event (with_region lead_data_resubmitted)
              (save_to_waiting_queue (with_region lead_data_resubmitted)))).
  - rewrite queue_run_of_lead_data_resubmitted.
    apply list_elem_of_further, list_elem_of_further, list_elem_of_here.
  - by left.
Defined.

Lemma resubmitted_queued_with_stale_agent :
  with_region lead_data_resubmitted !! "assigned_agent" = Some (PyInt 9).
Proof.
  rewrite (assigned_agent_kept_unless_assigned (mock None None john2) tt
             lead_data_resubmitted (with_region lead_data_resubmitted)
             (Event (with_region lead_data_resubmitted)
                (save_to_waiting_queue (with_region lead_data_resubmitted)))).
  - by_evaluation.
  - rewrite queue_run_of_lead_data_resubmitted.
    apply list_elem_of_further, list_elem_of_further, list_elem_of_here.
  - by right.
Defined.

Lemma assigned_then_requeued :
  run agents_world (process_lead (with_agent agent1 valid_lead_data_US)) []
  = ([Event (with_agent agent1 valid_lead_data_US)
        (find_call (with_agent agent1 valid_lead_data_US));
      Event (with_agent agent1 valid_lead_data_US) get_best_available_agent;
      Event (with_agent agent1 valid_lead_data_US)
        (save_to_waiting_queue (with_agent agent1 valid_lead_data_US))],
     Returned (queued_message, with_agent agent1 valid_lead_data_US),
     []).
Proof.
  apply (requeued_as_left agents_world [agent1] [] [] []
           valid_lead_data_US (assigned_message agent1)
           (with_agent agent1 valid_lead_data_US)).
  - by_evaluation.
  - apply not_eq_sym, updated_message_ne_assigned.
  - by_evaluation.
  - by_evaluation.
Defined.

Lemma is_valid_email_true_text (v : pyval) :
  is_valid_email v = Returned true → ∃ s, v = PyStr s.
Proof.
  destruct v as [|s|n]; [done | by exists s |].
  unfold is_valid_email. cbn [truthy]. by destruct (Z.eqb_spec n 0).
Qed.

Lemma is_valid_phone_true_text (v : pyval) :
  is_valid_phone v = Returned true → ∃ s, v = PyStr s.
Proof.
  destruct v as [|s|n]; [done | by exists s |].
  unfold is_valid_phone. cbn [truthy]. by destruct (Z.eqb_spec n 0).
Qed.

Section Lookup.
Context {W : Type} (handle : ∀ c : call, W → resp c * W).

(** The store is only ever asked about a validated contact: the
    arguments of [find_by_email_or_phone] are the email and the phone
    of the submission, both texts, the email of the accepted shape and
    the phone of the accepted shape (a final newline allowed). *)
Theorem lookup_arguments_validated (σ : W) (d : gmap string pyval) (ev : event)
    (email phone : pyval) :
  ev ∈ trace_of (run handle (process_lead d) σ) →
  ev_call ev = find_by_email_or_phone email phone →
  email = dict_get d "email" ∧ phone = dict_get d "phone"
  ∧ ∃ se sp, email = PyStr se ∧ phone = PyStr sp
      ∧ email_shape se
      ∧ (phone_shape sp ∨ ∃ s', sp = s' +:+ String Re.LF "" ∧ phone_shape s').
Proof.
  intros [[He Hp]%checks_None Hmade]%run_process_lead_events.
  destruct Hmade; cbn [ev_call find_call send_call log_call]; intros [=].
  subst email phone. split; [done |]. split; [done |].
  destruct (is_valid_email_true_text _ He) as [se Hse].
  destruct (is_valid_phone_true_text _ Hp) as [sp Hsp].
  rewrite Hse in He. rewrite Hsp in Hp.
  exists se, sp. rewrite Hse, Hsp.
  repeat split; [by apply is_valid_email_shape | by apply is_valid_phone_shape].
Qed.

End Lookup.

Lemma lookup_of_valid_lead_data :
  PyStr "test@example.com" = dict_get valid_lead_data "email"
  ∧ PyStr "12345678" = dict_get valid_lead_data "phone"
  ∧ ∃ se sp, PyStr "test@example.com" = PyStr se ∧ PyStr "12345678" = PyStr sp
      ∧ email_shape se
      ∧ (phone_shape sp ∨ ∃ s', sp = s' +:+ String Re.LF "" ∧ phone_shape s').
Proof.
  apply (lookup_arguments_validated (mock None None john2) tt valid_lead_data
           (Event valid_lead_data (find_call valid_lead_data))).
  - vm_compute. apply list_elem_of_here.
  - by_evaluation.
Defined.

(** * Exceptions, with collaborators that can fail *)

Lemma run_fallible_completing {W A : Type} (handle : ∀ c : call, W → resp c * W)
    (p : prog A) (σ : W) :
  run_fallible (completing handle) p σ = run handle p σ.
Proof.
  revert σ. induction p as [a | e | d c k IH]; intros σ; [done | done |].
  cbn [run_fallible run]. unfold completing at 1.
  destruct (handle c σ) as [r σ1]. by rewrite IH.
Qed.

(** Steps 2 to 9 contain no [raise]. *)
Lemma route_no_raise (d : gmap string pyval) : no_raise (route d).
Proof.
  intros [lead|]; cbn; [done |].
  intros [agent|]; cbn; done.
Qed.

Section Propagation.
Context {W : Type} (handle : ∀ c : call, W → result (resp c) * W).

(** A program without a [raise] of its own raises only what its last
    call raised. *)
Lemma no_raise_propagates {A : Type} (p : prog A) :
  no_raise p → ∀ σ e,
  outcome_of (run_fallible handle p σ) = Raised e →
  ∃ tr ev σ0,
    trace_of (run_fallible handle p σ) = tr ++ [ev]
    ∧ handle (ev_call ev) σ0 = (Raised e, world_of (run_fallible handle p σ)).
Proof.
  induction p as [a | e' | d c k IH]; intros Hno σ e; [done | done |].
  cbn [run_fallible]. destruct (handle c σ) as [[r | e1] σ1] eqn:Hcall.
  - specialize (IH r (Hno r) σ1 e).
    destruct (run_fallible handle (k r) σ1) as [[tr res] σ2].
    unfold outcome_of, trace_of, world_of in *. cbn [fst snd] in *.
    intros Hres. destruct (IH Hres) as (tr' & ev & σ0 & -> & Hlast).
    by exists (Event d c :: tr'), ev, σ0.
  - unfold outcome_of, trace_of, world_of. cbn [fst snd].
    intros [= <-]. by exists [], (Event d c), σ.
Qed.

(** Every exception that [process_lead] raises is of one of two kinds.
    Either it comes from its own checks: then no collaborator has been
    called, the collaborators are as they were, and the exception is
    one of the two validation failures or the [TypeError] of
    [re.match] (never the [KeyError] of [lead_data['location']]).  Or it
    is the exception that a collaborator call raised: then that call is
    the last one made, and the exception is passed on unchanged.  The
    collaborators return records of the modelled shape, or raise. *)
Theorem raise_is_early_or_propagated (σ : W) (d : gmap string pyval) (e : exn) :
  outcome_of (run_fallible handle (process_lead d) σ) = Raised e →
  (run_fallible handle (process_lead d) σ = ([], Raised e, σ)
   ∧ (e = presence_failure ∨ e = format_failure ∨ e = type_error))
  ∨ (∃ tr ev σ0,
       trace_of (run_fallible handle (process_lead d) σ) = tr ++ [ev]
       ∧ handle (ev_call ev) σ0
         = (Raised e, world_of (run_fallible handle (process_lead d) σ))).
Proof.
  rewrite process_lead_checks. destruct (checks d) as [e'|] eqn:Hchecks.
  - intros [= <-]. left. split; [done | by apply (checks_Some d)].
  - intros Hraised. right.
    by apply no_raise_propagates; [apply route_no_raise |].
Qed.

End Propagation.

Lemma notifier_failure_is_passed_on :
  (run_fallible (notifier_raises (KeyError "smtp")) (process_lead valid_lead_data) tt
   = ([], Raised (KeyError "smtp"), tt)
   ∧ (KeyError "smtp" = presence_failure ∨ KeyError "smtp" = format_failure
      ∨ KeyError "smtp" = type_error))
  ∨ (∃ tr ev σ0,
       trace_of (run_fallible (notifier_raises (KeyError "smtp"))
                   (process_lead valid_lead_data) tt) = tr ++ [ev]
       ∧ notifier_raises (KeyError "smtp") (ev_call ev) σ0
         = (Raised (KeyError "smtp"),
            world_of (run_fallible (notifier_raises (KeyError "smtp"))
                        (process_lead valid_lead_data) tt))).
Proof.
  apply (raise_is_early_or_propagated (notifier_raises (KeyError "smtp")) tt
           valid_lead_data (KeyError "smtp")).
  by_evaluation.
Defined.
